(** * Minesweeper knowledge engine: a shallow embedding of [minesweeper.py]

    The development models the classes [Sentence] and [MinesweeperAI] of
    [src/minesweeper.py].  Python integers are [Z], a cell is a pair of
    integers, a Python [set] of cells is a [gset], the list
    [self.knowledge] is a [list Sentence].  Objects mutated in place are
    modelled by explicit state passing: every [Sentence] stored in
    [self.knowledge] is a distinct object (each one is built by a fresh
    call of the constructor, which copies its cell set), so mutating
    "every sentence of the list" is a map over the list. *)

From stdpp Require Import gmap list sets.
From Stdlib Require Import ZArith Lia.

Open Scope Z_scope.

(** ** Data model *)

Abbreviation Cell := (Z * Z)%type.

(** [class Sentence]: [self.cells], [self.count]. *)
Record Sentence : Type := mkSentence {
  cells : gset Cell;
  count : Z
}.

(** [Sentence.__eq__] compares cells and count, which is Leibniz equality
    of the record ([gset] is extensional). *)
#[global] Instance Sentence_eq_dec : EqDecision Sentence.
Proof. solve_decision. Defined.

(** [class MinesweeperAI]. *)
Record AI : Type := mkAI {
  height : Z;
  width : Z;
  moves_made : gset Cell;
  mines : gset Cell;
  safes : gset Cell;
  knowledge : list Sentence
}.

(** [MinesweeperAI.__init__]. *)
Definition init (h w : Z) : AI :=
  {| height := h; width := w;
     moves_made := ∅; mines := ∅; safes := ∅; knowledge := [] |}.

Definition set_moves_made (m : gset Cell) (st : AI) : AI :=
  {| height := height st; width := width st; moves_made := m;
     mines := mines st; safes := safes st; knowledge := knowledge st |}.

Definition set_mines (m : gset Cell) (st : AI) : AI :=
  {| height := height st; width := width st; moves_made := moves_made st;
     mines := m; safes := safes st; knowledge := knowledge st |}.

Definition set_safes (s : gset Cell) (st : AI) : AI :=
  {| height := height st; width := width st; moves_made := moves_made st;
     mines := mines st; safes := s; knowledge := knowledge st |}.

Definition set_knowledge (k : list Sentence) (st : AI) : AI :=
  {| height := height st; width := width st; moves_made := moves_made st;
     mines := mines st; safes := safes st; knowledge := k |}.

(** ** Sentence *)

Module Sent.

(** [Sentence.known_mines]. *)
Definition known_mines (s : Sentence) : gset Cell :=
  if decide (Z.of_nat (size (cells s)) = count s) then cells s else ∅.

(** [Sentence.known_safes]. *)
Definition known_safes (s : Sentence) : gset Cell :=
  if decide (count s = 0) then cells s else ∅.

(** [Sentence.mark_mine]. *)
Definition mark_mine (c : Cell) (s : Sentence) : Sentence :=
  if decide (c ∈ cells s)
  then {| cells := cells s ∖ {[c]}; count := count s - 1 |}
  else s.

(** [Sentence.mark_safe]. *)
Definition mark_safe (c : Cell) (s : Sentence) : Sentence :=
  if decide (c ∈ cells s)
  then {| cells := cells s ∖ {[c]}; count := count s |}
  else s.

End Sent.

(** ** MinesweeperAI bookkeeping *)

(** [MinesweeperAI.mark_mine]. *)
Definition mark_mine (c : Cell) (st : AI) : AI :=
  set_knowledge (Sent.mark_mine c <$> knowledge st)
                (set_mines ({[c]} ∪ mines st) st).

(** [MinesweeperAI.mark_safe]. *)
Definition mark_safe (c : Cell) (st : AI) : AI :=
  set_knowledge (Sent.mark_safe c <$> knowledge st)
                (set_safes ({[c]} ∪ safes st) st).

(** [for c in cs: self.mark_safe(c)] and its twin, for the order [cs] in
    which the set is iterated. *)
Definition mark_safes (cs : list Cell) (st : AI) : AI :=
  foldl (fun acc c => mark_safe c acc) st cs.

Definition mark_mines (cs : list Cell) (st : AI) : AI :=
  foldl (fun acc c => mark_mine c acc) st cs.

(** The test [(row, col) is not self.moves_made] compares the identity of
    a freshly built tuple with that of a set object: two objects of
    different types are never the same object, so the test is always
    true, whatever the two values are. *)
Definition is_not_moves_made (c : Cell) (moves : gset Cell) : bool := true.

(** [range(i-1, i+2)] twice, rows outside, columns inside. *)
Definition candidates (cell : Cell) : list Cell :=
  let '(i, j) := cell in
  row ← [i - 1; i; i + 1]; col ← [j - 1; j; j + 1]; [(row, col)].

(** The guard of the loop body of [neighbors_to_cell]. *)
Definition on_board_other (st : AI) (cell rc : Cell) : bool :=
  bool_decide (0 ≤ rc.2 ∧ rc.2 < width st)
  && bool_decide (rc ≠ cell)
  && bool_decide (0 ≤ rc.1 ∧ rc.1 < height st)
  && is_not_moves_made rc (moves_made st).

(** One iteration of the loop body, on the accumulator
    [(neighbors, mines)]. *)
Definition neighbors_step (st : AI) (cell : Cell)
    (acc : gset Cell * Z) (rc : Cell) : gset Cell * Z :=
  if on_board_other st cell rc then
    if decide (rc ∈ mines st) then (acc.1, acc.2 + 1)
    else if decide (rc ∈ safes st) then acc
    else ({[rc]} ∪ acc.1, acc.2)
  else acc.

(** [MinesweeperAI.neighbors_to_cell]. *)
Definition neighbors_to_cell (st : AI) (cell : Cell) : gset Cell * Z :=
  foldl (neighbors_step st cell) (∅, 0) (candidates cell).

(** ** [MinesweeperAI.add_knowledge] *)

(** Steps 1 and 2: [self.moves_made.add(cell)] and [self.safes.add(cell)]. *)
Definition record_move (cell : Cell) (st : AI) : AI :=
  set_safes ({[cell]} ∪ safes st)
            (set_moves_made ({[cell]} ∪ moves_made st) st).

(** Step 3, first half: [neighbors], [found_mines], [count -= found_mines]
    and [new_sen = Sentence(neighbors, count)]. *)
Definition new_sentence (cell : Cell) (cnt : Z) (st : AI) : Sentence :=
  let neighbors := (neighbors_to_cell st cell).1 in
  let found_mines := (neighbors_to_cell st cell).2 in
  {| cells := neighbors; count := cnt - found_mines |}.

(** Step 3, second half: [if new_sen not in self.knowledge: append]. *)
Definition add_sentence (s : Sentence) (st : AI) : AI :=
  if decide (s ∈ knowledge st) then st
  else set_knowledge (knowledge st ++ [s]) st.

(** Step 4, loop body for the sentence [sen]: both sets are computed
    before any cell is marked. *)
Definition extract_sentence (sen : Sentence) (st : AI) : AI :=
  let safes := Sent.known_safes sen in
  let mines := Sent.known_mines sen in
  mark_mines (elements mines) (mark_safes (elements safes) st).

(** Step 4, [for sen in self.knowledge]: the list iterator reads
    [self.knowledge[i]] for [i = 0, 1, ...] until [i] reaches the length;
    the sentences are mutated in place meanwhile, so iteration [i] sees
    the current sentence at index [i]. *)
Fixpoint extract_loop (fuel i : nat) (st : AI) : AI :=
  match fuel with
  | O => st
  | S fuel' =>
      match knowledge st !! i with
      | None => st
      | Some sen => extract_loop fuel' (S i) (extract_sentence sen st)
      end
  end.

Definition extract_pass (st : AI) : AI :=
  extract_loop (length (knowledge st)) 0 st.

(** [list.remove(x)]: the first element equal to [x] is dropped.  (Python
    raises when there is none; [list_remove] then returns the list, and
    [outer_loop] below only removes an element it has just read from the
    list.) *)
Fixpoint list_remove (x : Sentence) (l : list Sentence) : list Sentence :=
  match l with
  | [] => []
  | y :: l' => if decide (y = x) then l' else y :: list_remove x l'
  end.

(** The chain [if / elif / elif / else] that names the bigger and the
    smaller set of a pair; [None] stands for [continue]. *)
Definition select_pair (sen1 sen2 : Sentence)
    : option (gset Cell * gset Cell * Z) :=
  let n1 := size (cells sen1) in
  let n2 := size (cells sen2) in
  if bool_decide ((n2 < n1)%nat ∧ n1 ≠ 0%nat ∧ n2 ≠ 0%nat) then
    Some (cells sen2, cells sen1, count sen1 - count sen2)
  else if bool_decide ((n1 < n2)%nat ∧ n1 ≠ 0%nat ∧ n2 ≠ 0%nat) then
    Some (cells sen1, cells sen2, count sen2 - count sen1)
  else if bool_decide (n1 = n2) then None
  else None.

(** [set.pop()]: some element of the set.  (Python raises on an empty
    set; [derive_pair] pops a set of size 1 only.) *)
Definition set_pop (s : gset Cell) : option Cell := head (elements s).

(** Step 5, body of the inner loop for the pair [(sen1, sen2)].  The two
    tests on [diff_count] are sequential in the source; they exclude each
    other, so the second one sees [diff_set] as it was built. *)
Definition derive_pair (sen1 sen2 : Sentence) (st : AI) : AI :=
  match select_pair sen1 sen2 with
  | None => st
  | Some (small_set, big_set, diff_count) =>
      if decide (small_set ⊆ big_set) then
        let diff_set := big_set ∖ small_set in
        if decide (size diff_set = 1%nat) then
          let st1 :=
            if decide (diff_count = 0)
            then from_option (fun c => mark_safe c st) st (set_pop diff_set)
            else st in
          if decide (diff_count = 1)
          then from_option (fun c => mark_mine c st1) st1 (set_pop diff_set)
          else st1
        else
          set_knowledge
            (knowledge st ++ [{| cells := diff_set; count := diff_count |}]) st
      else st
  end.

(** [for sen2 in known_sentences]: the copy is not modified inside. *)
Definition inner_loop (sen1 : Sentence) (L : list Sentence) (st : AI) : AI :=
  foldl (fun acc sen2 => derive_pair sen1 sen2 acc) st L.

(** [for sen1 in known_sentences: known_sentences.remove(sen1); ...]: the
    list iterator keeps an index [i] into the list [L] that the body
    shortens; it reads [L[i]], moves to [i + 1], and stops when the index
    reaches the current length. *)
Fixpoint outer_loop (fuel i : nat) (L : list Sentence) (st : AI) : AI :=
  match fuel with
  | O => st
  | S fuel' =>
      match L !! i with
      | None => st
      | Some sen1 =>
          let L' := list_remove sen1 L in
          outer_loop fuel' (S i) L' (inner_loop sen1 L' st)
      end
  end.

(** Step 5: [known_sentences = copy.deepcopy(self.knowledge)], then the
    two loops. *)
Definition derive_pass (st : AI) : AI :=
  let known_sentences := knowledge st in
  outer_loop (length known_sentences) 0 known_sentences st.

Definition add_knowledge (cell : Cell) (cnt : Z) (st : AI) : AI :=
  let st1 := record_move cell st in
  let st3 := add_sentence (new_sentence cell cnt st1) st1 in
  let st4 := extract_pass st3 in
  derive_pass st4.

(** ** Move selection *)

(** [MinesweeperAI.make_safe_move].  [order] is the order in which
    [for i in self.safes] yields the cells of the set (the order of a
    Python set is not fixed by its contents).  Both branches of the loop
    body leave it ([continue] or [return safe_move]), so the [return None]
    that follows them in the body is never reached; with the loop
    exhausted the method returns [None].  The [print] calls are omitted. *)
Fixpoint safe_move_loop (order : list Cell) (st : AI) : option Cell * AI :=
  match order with
  | [] => (None, st)
  | i :: rest =>
      if decide (i ∈ moves_made st) then safe_move_loop rest st
      else (Some i, set_moves_made ({[i]} ∪ moves_made st) st)
  end.

Definition make_safe_move (order : list Cell) (st : AI) : option Cell * AI :=
  safe_move_loop order st.

(** [MinesweeperAI.make_random_move].  [r] stands for the draw of
    [random.choice], which returns [future_moves[k]] for some index [k]
    below the length. *)
Definition board (st : AI) : list Cell :=
  row ← seqZ 0 (height st); col ← seqZ 0 (width st); [(row, col)].

Definition future_moves (st : AI) : list Cell :=
  filter (fun c => (c ∉ mines st) ∧ (c ∉ moves_made st)) (board st).

Definition make_random_move (r : nat) (st : AI) : option Cell * AI :=
  let fm := future_moves st in
  if decide (length fm = 0%nat) then (None, st)
  else
    match fm !! Nat.modulo r (length fm) with
    | Some random_move =>
        (Some random_move,
         set_moves_made ({[random_move]} ∪ moves_made st) st)
    | None => (None, st)
    end.

(** The state of [add_knowledge] after its step 3, before the two
    inference passes. *)
Definition ingest_sentence (cell : Cell) (cnt : Z) (st : AI) : AI :=
  let st1 := record_move cell st in
  add_sentence (new_sentence cell cnt st1) st1.

(** The pairs [(sen1, sen2)] on which the body of the inner loop of step 5
    runs, in order: [outer_pairs] follows [outer_loop]. *)
Fixpoint outer_pairs (fuel i : nat) (L : list Sentence)
    : list (Sentence * Sentence) :=
  match fuel with
  | O => []
  | S fuel' =>
      match L !! i with
      | None => []
      | Some sen1 =>
          let L' := list_remove sen1 L in
          ((fun sen2 => (sen1, sen2)) <$> L') ++ outer_pairs fuel' (S i) L'
      end
  end.

Definition visited_pairs (L : list Sentence) : list (Sentence * Sentence) :=
  outer_pairs (length L) 0 L.

(** The loop body of step 5 run over a list of pairs. *)
Definition derive_pairs (ps : list (Sentence * Sentence)) (st : AI) : AI :=
  foldl (fun acc p => derive_pair p.1 p.2 acc) st ps.

(** ** Vocabulary of the properties *)

(** The neighbourhood in the words of the specification: the cells
    8-adjacent to [cell], other than [cell], inside the board. *)
Definition adjacent (h w : Z) (cell n : Cell) : Prop :=
  (0 ≤ n.1 ∧ n.1 < h) ∧ (0 ≤ n.2 ∧ n.2 < w) ∧ n ≠ cell
  ∧ (cell.1 - 1 ≤ n.1 ∧ n.1 ≤ cell.1 + 1)
  ∧ (cell.2 - 1 ≤ n.2 ∧ n.2 ≤ cell.2 + 1).

#[global] Instance adjacent_dec h w cell n : Decision (adjacent h w cell n).
Proof. unfold adjacent. apply _. Defined.

(** The same neighbourhood as a finite set: the 3 x 3 block around
    [cell], filtered. *)
Definition adj_set (h w : Z) (cell : Cell) : gset Cell :=
  list_to_set (filter (adjacent h w cell) (candidates cell)).

(** The count the board reports for a probe of [cell]: the hazards among
    the in-bounds neighbours of [cell]. *)
Definition true_count (H : gset Cell) (h w : Z) (cell : Cell) : Z :=
  Z.of_nat (size (adj_set h w cell ∩ H)).

(** [holds H s]: the sentence [s] is true on the board whose hazards are
    the cells of [H]. *)
Definition holds (H : gset Cell) (s : Sentence) : Prop :=
  Z.of_nat (size (cells s ∩ H)) = count s.

(** [sound H st]: everything the engine has recorded is true on [H]. *)
Definition sound (H : gset Cell) (st : AI) : Prop :=
  mines st ⊆ H ∧ safes st ## H ∧ Forall (holds H) (knowledge st).

(** [grows st st']: the board size and [moves_made] are those of [st],
    and [mines] and [safes] have only gained cells. *)
Definition grows (st st' : AI) : Prop :=
  height st' = height st ∧ width st' = width st
  ∧ moves_made st' = moves_made st
  ∧ mines st ⊆ mines st' ∧ safes st ⊆ safes st'.

(** A step from [st] to [st'] that appends a sentence appends one whose
    cells are all unresolved in [st]. *)
Definition appended_fresh (st st' : AI) : Prop :=
  ∀ s, knowledge st' = knowledge st ++ [s] → cells s ## mines st ∪ safes st.

(** Input outside the contract of [add_knowledge]: a negative count, a
    count above the number of in-bounds neighbours, a cell off the board. *)
Definition malformed (st : AI) (cell : Cell) (cnt : Z) : Prop :=
  cnt < 0
  ∨ Z.of_nat (size (adj_set (height st) (width st) cell)) < cnt
  ∨ ¬ ((0 ≤ cell.1 ∧ cell.1 < height st)
       ∧ (0 ≤ cell.2 ∧ cell.2 < width st)).

(** The calls of the public interface, with what Python leaves open made
    explicit: the iteration order of [self.safes] and the random draw. *)
Inductive op : Type :=
  | Ingest (cell : Cell) (cnt : Z)
  | PickSafe (order : list Cell)
  | PickFallback (r : nat).

Definition step (st : AI) (o : op) : AI :=
  match o with
  | Ingest cell cnt => add_knowledge cell cnt st
  | PickSafe order => (make_safe_move order st).2
  | PickFallback r => (make_random_move r st).2
  end.

Definition run (ops : list op) (st : AI) : AI := foldl step st ops.

(** The inbound contract of a call on the board with hazards [H]: a probed
    cell is not a hazard and comes with its true count. *)
Definition inbound (H : gset Cell) (st : AI) (o : op) : Prop :=
  match o with
  | Ingest cell cnt =>
      (cell ∉ H) ∧ cnt = true_count H (height st) (width st) cell
  | PickSafe _ | PickFallback _ => True
  end.

Fixpoint obeys (H : gset Cell) (st : AI) (ops : list op) : Prop :=
  match ops with
  | [] => True
  | o :: ops' => inbound H st o ∧ obeys H (step st o) ops'
  end.

(** Every probe of [ops] is of a cell that no sentence of the knowledge
    base mentions when the call is made. *)
Fixpoint probes_unmentioned (st : AI) (ops : list op) : Prop :=
  match ops with
  | [] => True
  | o :: ops' =>
      match o with
      | Ingest cell _ => Forall (fun s => cell ∉ cells s) (knowledge st)
      | PickSafe _ | PickFallback _ => True
      end
      ∧ probes_unmentioned (step st o) ops'
  end.

#[global] Instance AI_eq_dec : EqDecision AI.
Proof. solve_decision. Defined.

#[global] Instance inbound_dec H st o : Decision (inbound H st o).
Proof. destruct o; cbn [inbound]; apply _. Defined.

#[global] Instance obeys_dec H st ops : Decision (obeys H st ops).
Proof.
  revert st. induction ops as [| o ops IH]; intros st; cbn [obeys]; apply _.
Defined.

#[global] Instance probes_unmentioned_dec st ops :
  Decision (probes_unmentioned st ops).
Proof.
  revert st. induction ops as [| o ops IH]; intros st;
    cbn [probes_unmentioned]; [apply _ |].
  destruct o; apply _.
Defined.

#[global] Instance malformed_dec st cell cnt : Decision (malformed st cell cnt).
Proof. unfold malformed. apply _. Defined.

(** A closed decidable proposition, settled by evaluation. *)
Ltac by_compute := apply (bool_decide_unpack _); vm_compute; exact I.

(** Projections of the records and of the field updates, without
    unfolding the set operations. *)
Ltac simpl_state :=
  cbn [height width moves_made mines safes knowledge cells count
       set_moves_made set_mines set_safes set_knowledge
       mark_mine mark_safe record_move fst snd] in *.

(** ** [class Minesweeper]: the board the engine is played against *)

Module Minesweeper.

(** [self.height], [self.width], [self.mines], [self.board] (a list of
    rows, each a list of booleans) and [self.mines_found]. *)
Record t : Type := mk {
  height : Z;
  width : Z;
  mines : gset Cell;
  board : list (list bool);
  mines_found : gset Cell
}.

(** What a constructor call comes to: the game; the [ValueError] of
    [random.randrange] on an empty range; an [IndexError] of a list
    access; or a loop still running when the supplied draws are used
    up. *)
Inductive init_result : Type :=
  | Built (g : t)
  | ValueError
  | IndexError
  | Unfinished.

(** [l[i]] on a Python list: an index from [0] counts from the front, a
    negative one from the back, and an index outside [-len, len) raises
    [IndexError] ([None]). *)
Definition getitem {A : Type} (l : list A) (i : Z) : option A :=
  if decide (0 ≤ i) then l !! Z.to_nat i
  else if decide (- Z.of_nat (length l) ≤ i)
       then l !! Z.to_nat (Z.of_nat (length l) + i)
       else None.

(** [l[i] = x], with the same reading of the index. *)
Definition setitem {A : Type} (l : list A) (i : Z) (x : A)
    : option (list A) :=
  if decide (0 ≤ i ∧ i < Z.of_nat (length l)) then
    Some (<[Z.to_nat i := x]> l)
  else if decide (- Z.of_nat (length l) ≤ i ∧ i < 0) then
    Some (<[Z.to_nat (Z.of_nat (length l) + i) := x]> l)
  else None.

(** [self.board[i][j]]. *)
Definition board_get (b : list (list bool)) (i j : Z) : option bool :=
  row ← getitem b i; getitem row j.

(** [self.board[i][j] = v]: the row object is updated in place; the rows
    are distinct objects, each built by its own [row = []]. *)
Definition board_set (b : list (list bool)) (i j : Z) (v : bool)
    : option (list (list bool)) :=
  row ← getitem b i; row' ← setitem row j v; setitem b i row'.

(** The two [for ... in range(...)] loops of [__init__]. *)
Definition empty_board (h w : Z) : list (list bool) :=
  replicate (Z.to_nat h) (replicate (Z.to_nat w) false).

(** The [while len(self.mines) != mines] loop of [__init__].  Each
    element of [draws] stands for one pair of calls of
    [random.randrange]: the call [randrange(n)] raises on [n <= 0] and
    otherwise returns some value of [range(n)], here the draw reduced
    modulo [n]. *)
Fixpoint place (draws : list (Z * Z)) (n : Z) (g : t) : init_result :=
  if decide (Z.of_nat (size (mines g)) = n) then Built g
  else if decide (height g ≤ 0) then ValueError
  else if decide (width g ≤ 0) then ValueError
  else
    match draws with
    | [] => Unfinished
    | (d1, d2) :: rest =>
        let i := d1 `mod` height g in
        let j := d2 `mod` width g in
        match board_get (board g) i j with
        | None => IndexError
        | Some true => place rest n g
        | Some false =>
            match board_set (board g) i j true with
            | None => IndexError
            | Some b' =>
                place rest n
                  {| height := height g; width := width g;
                     mines := {[(i, j)]} ∪ mines g; board := b';
                     mines_found := mines_found g |}
            end
        end
    end.

(** [Minesweeper.__init__(height, width, mines)]; [self.mines_found] is
    assigned after the loop, which does not read it. *)
Definition init (h w n : Z) (draws : list (Z * Z)) : init_result :=
  place draws n
    {| height := h; width := w; mines := ∅; board := empty_board h w;
       mines_found := ∅ |}.

(** [Minesweeper.is_mine]. *)
Definition is_mine (g : t) (cell : Cell) : option bool :=
  board_get (board g) cell.1 cell.2.

(** One iteration of the loops of [nearby_mines], on the running count;
    [None] is an [IndexError]. *)
Definition nearby_step (g : t) (cell : Cell) (acc : option Z) (rc : Cell)
    : option Z :=
  count ← acc;
  if decide (rc = cell) then Some count
  else if decide ((0 ≤ rc.1 ∧ rc.1 < height g)
                  ∧ (0 ≤ rc.2 ∧ rc.2 < width g)) then
    b ← board_get (board g) rc.1 rc.2;
    Some (if b : bool then count + 1 else count)
  else Some count.

(** [Minesweeper.nearby_mines]. *)
Definition nearby_mines (g : t) (cell : Cell) : option Z :=
  foldl (nearby_step g cell) (Some 0) (candidates cell).

(** [Minesweeper.won]. *)
Definition won (g : t) : bool := bool_decide (mines_found g = mines g).

(** A game whose board has [height] rows of [width] cells and is [True]
    exactly at the cells of [mines], all of them on the board. *)
Definition wf (g : t) : Prop :=
  length (board g) = Z.to_nat (height g)
  ∧ Forall (fun row => length row = Z.to_nat (width g)) (board g)
  ∧ (∀ c, c ∈ mines g →
          (0 ≤ c.1 ∧ c.1 < height g) ∧ (0 ≤ c.2 ∧ c.2 < width g))
  ∧ (∀ i j, (0 ≤ i ∧ i < height g) → (0 ≤ j ∧ j < width g) →
            board_get (board g) i j = Some (bool_decide ((i, j) ∈ mines g))).

End Minesweeper.

(** ** More vocabulary *)

(** [on_board st c]: the cell is inside the board of the engine. *)
Definition on_board (st : AI) (c : Cell) : Prop :=
  (0 ≤ c.1 ∧ c.1 < height st) ∧ (0 ≤ c.2 ∧ c.2 < width st).

(** [extends k k']: the list [k'] starts with the sentences of [k], each
    with the same or fewer cells and the same or a smaller count, and
    may go on with new sentences. *)
Definition extends (k k' : list Sentence) : Prop :=
  ∃ k1 k2, k' = k1 ++ k2
           ∧ Forall2 (fun s s' => cells s' ⊆ cells s ∧ count s' ≤ count s)
                     k k1.

(** The pairs that the two loops of step 5 reach on a list of distinct
    sentences, [kept] being the sentences before the iterator's index
    that are still in the list and [rest] those from the index on: the
    sentence at the index is [sen1] and is removed, which moves the
    next one under the index, where the iterator passes over it. *)
Fixpoint skip_pairs (kept rest : list Sentence)
    : list (Sentence * Sentence) :=
  match rest with
  | [] => []
  | x :: rest1 =>
      match rest1 with
      | [] => (fun sen2 => (x, sen2)) <$> kept
      | y :: rest2 =>
          ((fun sen2 => (x, sen2)) <$> (kept ++ rest1))
          ++ skip_pairs (kept ++ [y]) rest2
      end
  end.

(** * Proofs *)

(** ** Neighbour enumeration *)

Section Neighbours.

Lemma elem_of_candidates (cell n : Cell) :
  n ∈ candidates cell ↔
  (cell.1 - 1 ≤ n.1 ∧ n.1 ≤ cell.1 + 1)
  ∧ (cell.2 - 1 ≤ n.2 ∧ n.2 ≤ cell.2 + 1).
Proof.
  destruct cell as [i j], n as [r c]. cbn [candidates fst snd].
  cbn [mbind list_bind app]. rewrite !elem_of_cons, elem_of_nil. split.
  - intros Hin.
    repeat match goal with
           | H : _ ∨ _ |- _ => destruct H
           | H : (_, _) = (_, _) |- _ => injection H; clear H; intros
           | H : False |- _ => destruct H
           end; lia.
  - intros [Hr Hc].
    assert (r = i - 1 ∨ r = i ∨ r = i + 1) as Hr' by lia.
    assert (c = j - 1 ∨ c = j ∨ c = j + 1) as Hc' by lia.
    destruct Hr' as [-> | [-> | ->]], Hc' as [-> | [-> | ->]]; tauto.
Qed.

Lemma NoDup_candidates (cell : Cell) : NoDup (candidates cell).
Proof.
  destruct cell as [i j]. cbn [candidates mbind list_bind app].
  repeat (apply NoDup_cons; split;
          [rewrite ?elem_of_cons, elem_of_nil; intros Hin;
           repeat match goal with
                  | H : _ ∨ _ |- _ => destruct H
                  | H : (_, _) = (_, _) |- _ => injection H; intros; lia
                  | H : False |- _ => destruct H
                  end |]).
  apply NoDup_nil_2.
Qed.

Lemma elem_of_adj_set (h w : Z) (cell n : Cell) :
  n ∈ adj_set h w cell ↔ adjacent h w cell n.
Proof.
  unfold adj_set. rewrite elem_of_list_to_set, list_elem_of_filter.
  rewrite elem_of_candidates. unfold adjacent. tauto.
Qed.

Lemma on_board_other_adjacent (st : AI) (cell n : Cell) :
  n ∈ candidates cell →
  on_board_other st cell n = true ↔ adjacent (height st) (width st) cell n.
Proof.
  rewrite elem_of_candidates. intros Hc. unfold on_board_other, adjacent.
  unfold is_not_moves_made. rewrite !andb_true_iff, !bool_decide_eq_true.
  tauto.
Qed.

(** The loop of [neighbors_to_cell], from any accumulator and over any
    list of distinct candidates none of which is in the accumulator. *)
Lemma neighbors_fold (st : AI) (cell : Cell) (l : list Cell)
    (nb : gset Cell) (m : Z) :
  foldl (neighbors_step st cell) (nb, m) l =
  (nb ∪ list_to_set
          (filter (fun n => on_board_other st cell n = true
                            ∧ (n ∉ mines st) ∧ (n ∉ safes st)) l),
   m + Z.of_nat
         (length (filter (fun n => on_board_other st cell n = true
                                   ∧ n ∈ mines st) l))).
Proof.
  revert nb m. induction l as [| n l IH]; intros nb m.
  - cbn. f_equal; [set_solver | lia].
  - cbn [foldl]. unfold neighbors_step at 2. cbn [fst snd].
    rewrite !filter_cons.
    destruct (on_board_other st cell n) eqn:Hon.
    + destruct (decide (n ∈ mines st)) as [Hm | Hm].
      * rewrite IH. rewrite decide_False by tauto.
        rewrite decide_True by tauto. cbn [length]. f_equal. lia.
      * destruct (decide (n ∈ safes st)) as [Hs | Hs].
        -- rewrite IH. rewrite decide_False by tauto.
           rewrite decide_False by tauto. done.
        -- rewrite IH. rewrite decide_True by tauto.
           rewrite decide_False by tauto. cbn [list_to_set].
           f_equal. set_solver.
    + rewrite IH. rewrite decide_False by (intros [? _]; done).
      rewrite decide_False by (intros [? _]; done). done.
Qed.

Lemma neighbors_to_cell_cells (st : AI) (cell n : Cell) :
  n ∈ (neighbors_to_cell st cell).1 ↔
  adjacent (height st) (width st) cell n ∧ (n ∉ mines st) ∧ (n ∉ safes st).
Proof.
  unfold neighbors_to_cell. rewrite neighbors_fold. cbn [fst].
  rewrite elem_of_union, elem_of_list_to_set, list_elem_of_filter.
  split.
  - intros [Hin | [(Hon & Hm & Hs) Hc]]; [set_solver |].
    apply on_board_other_adjacent in Hon; done.
  - intros (Hadj & Hm & Hs). right.
    assert (n ∈ candidates cell) as Hc.
    { apply elem_of_candidates. unfold adjacent in Hadj. tauto. }
    split; [| done]. split; [| done]. by apply on_board_other_adjacent.
Qed.

Lemma neighbors_to_cell_mines (st : AI) (cell : Cell) :
  (neighbors_to_cell st cell).2 =
  Z.of_nat (size (filter (fun n => n ∈ mines st)
                         (adj_set (height st) (width st) cell))).
Proof.
  unfold neighbors_to_cell. rewrite neighbors_fold. cbn [snd].
  rewrite Z.add_0_l. f_equal.
  set (P := fun n => on_board_other st cell n = true ∧ n ∈ mines st).
  assert (filter (fun n => n ∈ mines st)
                 (adj_set (height st) (width st) cell)
          = list_to_set (filter P (candidates cell))) as ->.
  { apply set_eq. intros n.
    rewrite elem_of_filter, elem_of_adj_set, elem_of_list_to_set,
      list_elem_of_filter.
    unfold P. split.
    - intros [Hm Hadj]. assert (n ∈ candidates cell) as Hc.
      { apply elem_of_candidates. unfold adjacent in Hadj. tauto. }
      split; [| done]. split; [| done]. by apply on_board_other_adjacent.
    - intros [[Hon Hm] Hc]. split; [done |].
      by apply on_board_other_adjacent in Hon. }
  symmetry. apply size_list_to_set. apply NoDup_filter, NoDup_candidates.
Qed.

End Neighbours.

(** ** Sentences: closed forms of the in-place updates *)

Section SentenceFacts.

Lemma Sent_mark_safe_eq (c : Cell) (s : Sentence) :
  Sent.mark_safe c s = {| cells := cells s ∖ {[c]}; count := count s |}.
Proof.
  unfold Sent.mark_safe. destruct s as [cs n]; simpl_state.
  case_decide; [done |]. f_equal. set_solver.
Qed.

Lemma Sent_mark_safes_eq (l : list Cell) (s : Sentence) :
  foldl (fun acc c => Sent.mark_safe c acc) s l =
  {| cells := cells s ∖ list_to_set l; count := count s |}.
Proof.
  revert s. induction l as [| c l IH]; intros s; cbn [foldl].
  - destruct s as [cs n]; simpl_state. f_equal. set_solver.
  - rewrite IH, Sent_mark_safe_eq. simpl_state. f_equal. set_solver.
Qed.

Lemma Sent_mark_mines_eq (l : list Cell) (s : Sentence) :
  NoDup l →
  foldl (fun acc c => Sent.mark_mine c acc) s l =
  {| cells := cells s ∖ list_to_set l;
     count := count s - Z.of_nat (size (cells s ∩ list_to_set l)) |}.
Proof.
  intros Hnd. revert s.
  induction Hnd as [| c l Hc Hnd IH]; intros s; cbn [foldl].
  - destruct s as [cs n]; simpl_state. f_equal; [set_solver |].
    replace (cs ∩ list_to_set []) with (∅ : gset Cell) by set_solver.
    rewrite size_empty. lia.
  - rewrite IH. unfold Sent.mark_mine.
    destruct (decide (c ∈ cells s)) as [Hin | Hin]; simpl_state.
    + f_equal; [set_solver |].
      assert (c ∉ (list_to_set l : gset Cell)) as Hc'
        by (by rewrite elem_of_list_to_set).
      replace (cells s ∩ list_to_set (c :: l))
        with ({[c]} ∪ (cells s ∖ {[c]}) ∩ list_to_set l) by set_solver.
      rewrite (size_union {[c]}) by set_solver. rewrite size_singleton. lia.
    + f_equal; [set_solver |]. do 3 f_equal. set_solver.
Qed.

Lemma elem_of_set_pop (s : gset Cell) (c : Cell) :
  set_pop s = Some c → c ∈ s.
Proof.
  unfold set_pop. intros Hh. apply elem_of_elements.
  by apply head_Some_elem_of.
Qed.

Lemma set_pop_nonempty (s : gset Cell) :
  s ≠ ∅ → ∃ c, set_pop s = Some c.
Proof.
  intros Hne. unfold set_pop. destruct (elements s) as [| c l] eqn:He.
  - apply elements_empty_inv in He. destruct Hne. by apply leibniz_equiv.
  - by exists c.
Qed.

End SentenceFacts.

(** ** The engine's updates, field by field *)

Section MarkFacts.

Lemma knowledge_mark_safes (l : list Cell) (st : AI) :
  knowledge (mark_safes l st) =
  (fun s => {| cells := cells s ∖ list_to_set l; count := count s |})
    <$> knowledge st.
Proof.
  revert st. induction l as [| c l IH]; intros st; cbn [mark_safes foldl].
  - rewrite <- (list_fmap_id (knowledge st)) at 1.
    apply list_fmap_ext. intros i [cs n] Hi. unfold id. simpl_state.
    f_equal. set_solver.
  - fold (mark_safes l (mark_safe c st)). rewrite IH. simpl_state.
    rewrite <- list_fmap_compose. apply list_fmap_ext. intros i s Hi.
    unfold compose. simpl_state.
    rewrite Sent_mark_safe_eq. simpl_state. f_equal. set_solver.
Qed.

Lemma knowledge_mark_mines (l : list Cell) (st : AI) :
  knowledge (mark_mines l st) =
  (fun s => foldl (fun acc c => Sent.mark_mine c acc) s l) <$> knowledge st.
Proof.
  revert st. induction l as [| c l IH]; intros st; cbn [mark_mines foldl].
  - by rewrite list_fmap_id.
  - fold (mark_mines l (mark_mine c st)). rewrite IH. simpl_state.
    by rewrite <- list_fmap_compose.
Qed.

Lemma safes_mark_safes (l : list Cell) (st : AI) :
  safes (mark_safes l st) = list_to_set l ∪ safes st.
Proof.
  revert st. induction l as [| c l IH]; intros st; cbn [mark_safes foldl].
  - set_solver.
  - fold (mark_safes l (mark_safe c st)). rewrite IH. simpl_state. set_solver.
Qed.

Lemma mines_mark_mines (l : list Cell) (st : AI) :
  mines (mark_mines l st) = list_to_set l ∪ mines st.
Proof.
  revert st. induction l as [| c l IH]; intros st; cbn [mark_mines foldl].
  - set_solver.
  - fold (mark_mines l (mark_mine c st)). rewrite IH. simpl_state. set_solver.
Qed.

Lemma frame_mark_safes (l : list Cell) (st : AI) :
  height (mark_safes l st) = height st ∧ width (mark_safes l st) = width st
  ∧ moves_made (mark_safes l st) = moves_made st
  ∧ mines (mark_safes l st) = mines st.
Proof.
  revert st. induction l as [| c l IH]; intros st; [done |].
  cbn [mark_safes foldl]. fold (mark_safes l (mark_safe c st)).
  destruct (IH (mark_safe c st)) as (-> & -> & -> & ->). done.
Qed.

Lemma frame_mark_mines (l : list Cell) (st : AI) :
  height (mark_mines l st) = height st ∧ width (mark_mines l st) = width st
  ∧ moves_made (mark_mines l st) = moves_made st
  ∧ safes (mark_mines l st) = safes st.
Proof.
  revert st. induction l as [| c l IH]; intros st; [done |].
  cbn [mark_mines foldl]. fold (mark_mines l (mark_mine c st)).
  destruct (IH (mark_mine c st)) as (-> & -> & -> & ->). done.
Qed.

(** The order in which a set is iterated does not matter for the two
    marking loops. *)
Lemma mark_safes_perm (l l' : list Cell) (st : AI) :
  l ≡ₚ l' → mark_safes l st = mark_safes l' st.
Proof.
  intros Hp. revert st.
  induction Hp as [| c l l' Hp IH | c d l | l l' l'' _ IH1 _ IH2]; intros st.
  - done.
  - cbn [mark_safes foldl]. apply IH.
  - cbn [mark_safes foldl]. f_equal. unfold mark_safe, set_knowledge,
      set_safes; simpl_state. f_equal; [set_solver |].
    rewrite <- !list_fmap_compose. apply list_fmap_ext. intros i s Hi.
    unfold compose.
    rewrite !Sent_mark_safe_eq. simpl_state. f_equal. set_solver.
  - by rewrite IH1.
Qed.

Lemma Sent_mark_mine_comm (c d : Cell) (s : Sentence) :
  Sent.mark_mine c (Sent.mark_mine d s) = Sent.mark_mine d (Sent.mark_mine c s).
Proof.
  destruct (decide (c = d)) as [-> | Hne]; [done |].
  unfold Sent.mark_mine.
  destruct (decide (d ∈ cells s)) as [Hd | Hd],
           (decide (c ∈ cells s)) as [Hc | Hc]; simpl_state;
    repeat case_decide; try set_solver; simpl_state; f_equal;
    try set_solver; lia.
Qed.

Lemma mark_mines_perm (l l' : list Cell) (st : AI) :
  l ≡ₚ l' → mark_mines l st = mark_mines l' st.
Proof.
  intros Hp. revert st.
  induction Hp as [| c l l' Hp IH | c d l | l l' l'' _ IH1 _ IH2]; intros st.
  - done.
  - cbn [mark_mines foldl]. apply IH.
  - cbn [mark_mines foldl]. f_equal. unfold mark_mine, set_knowledge,
      set_mines; simpl_state. f_equal; [set_solver |].
    rewrite <- !list_fmap_compose. apply list_fmap_ext. intros i s Hi.
    unfold compose.
    apply Sent_mark_mine_comm.
  - by rewrite IH1.
Qed.

End MarkFacts.

(** ** What each pass of [add_knowledge] leaves alone *)

Section Frame.

Lemma grows_refl (st : AI) : grows st st.
Proof. unfold grows. set_solver. Qed.

Lemma grows_trans (st1 st2 st3 : AI) :
  grows st1 st2 → grows st2 st3 → grows st1 st3.
Proof.
  unfold grows. intros (-> & -> & -> & ? & ?) (-> & -> & -> & ? & ?).
  set_solver.
Qed.

Lemma grows_mark_safe (c : Cell) (st : AI) : grows st (mark_safe c st).
Proof. unfold grows; simpl_state. set_solver. Qed.

Lemma grows_mark_mine (c : Cell) (st : AI) : grows st (mark_mine c st).
Proof. unfold grows; simpl_state. set_solver. Qed.

Lemma grows_mark_safes (l : list Cell) (st : AI) : grows st (mark_safes l st).
Proof.
  unfold grows. destruct (frame_mark_safes l st) as (-> & -> & -> & ->).
  rewrite safes_mark_safes. set_solver.
Qed.

Lemma grows_mark_mines (l : list Cell) (st : AI) : grows st (mark_mines l st).
Proof.
  unfold grows. destruct (frame_mark_mines l st) as (-> & -> & -> & ->).
  rewrite mines_mark_mines. set_solver.
Qed.

Lemma grows_extract_sentence (sen : Sentence) (st : AI) :
  grows st (extract_sentence sen st).
Proof.
  unfold extract_sentence.
  eapply grows_trans; [apply grows_mark_safes | apply grows_mark_mines].
Qed.

Lemma grows_extract_loop (fuel i : nat) (st : AI) :
  grows st (extract_loop fuel i st).
Proof.
  revert i st. induction fuel as [| fuel IH]; intros i st; cbn [extract_loop].
  - apply grows_refl.
  - destruct (knowledge st !! i) as [sen |]; [| apply grows_refl].
    eapply grows_trans; [apply grows_extract_sentence | apply IH].
Qed.

Lemma grows_derive_pair (sen1 sen2 : Sentence) (st : AI) :
  grows st (derive_pair sen1 sen2 st).
Proof.
  unfold derive_pair.
  destruct (select_pair sen1 sen2) as [[[small big] d] |];
    [| apply grows_refl].
  repeat case_decide; try apply grows_refl;
    repeat match goal with
           | |- context [set_pop ?s] => destruct (set_pop s); simpl_state
           end;
    try apply grows_refl; try apply grows_mark_safe;
    try apply grows_mark_mine.
  - eapply grows_trans; [apply grows_mark_safe | apply grows_mark_mine].
  - unfold grows; simpl_state. set_solver.
Qed.

Lemma grows_inner_loop (sen1 : Sentence) (L : list Sentence) (st : AI) :
  grows st (inner_loop sen1 L st).
Proof.
  unfold inner_loop. revert st.
  induction L as [| sen2 L IH]; intros st; cbn [foldl].
  - apply grows_refl.
  - eapply grows_trans; [apply grows_derive_pair | apply IH].
Qed.

Lemma grows_outer_loop (fuel i : nat) (L : list Sentence) (st : AI) :
  grows st (outer_loop fuel i L st).
Proof.
  revert i L st. induction fuel as [| fuel IH]; intros i L st;
    cbn [outer_loop].
  - apply grows_refl.
  - destruct (L !! i) as [sen1 |]; [| apply grows_refl].
    eapply grows_trans; [apply grows_inner_loop | apply IH].
Qed.

Lemma grows_add_sentence (s : Sentence) (st : AI) :
  grows st (add_sentence s st).
Proof. unfold add_sentence. case_decide; unfold grows; simpl_state; set_solver. Qed.

(** [add_knowledge] after its first two steps. *)
Lemma grows_add_knowledge (cell : Cell) (cnt : Z) (st : AI) :
  grows (record_move cell st) (add_knowledge cell cnt st).
Proof.
  unfold add_knowledge, derive_pass, extract_pass.
  eapply grows_trans; [apply grows_add_sentence |].
  eapply grows_trans; [apply grows_extract_loop | apply grows_outer_loop].
Qed.

End Frame.

(** ** Soundness with respect to a board *)

Section Soundness.

Variable H : gset Cell.

Lemma holds_mark_safe (c : Cell) (s : Sentence) :
  c ∉ H → holds H s → holds H (Sent.mark_safe c s).
Proof.
  intros Hc Hs. rewrite Sent_mark_safe_eq. unfold holds in *. simpl_state.
  replace ((cells s ∖ {[c]}) ∩ H) with (cells s ∩ H) by set_solver. done.
Qed.

Lemma holds_mark_mine (c : Cell) (s : Sentence) :
  c ∈ H → holds H s → holds H (Sent.mark_mine c s).
Proof.
  intros Hc Hs. unfold Sent.mark_mine. case_decide as Hin; [| done].
  unfold holds in *. simpl_state. rewrite <- Hs.
  replace (cells s ∩ H) with ({[c]} ∪ (cells s ∖ {[c]}) ∩ H).
  - rewrite (size_union {[c]}) by set_solver. rewrite size_singleton. lia.
  - apply set_eq. intros x. destruct (decide (x = c)); set_solver.
Qed.

Lemma known_safes_sound (s : Sentence) (c : Cell) :
  holds H s → c ∈ Sent.known_safes s → c ∉ H.
Proof.
  unfold holds, Sent.known_safes. intros Hs. case_decide as H0; [| set_solver].
  intros Hc. rewrite H0 in Hs.
  assert (size (cells s ∩ H) = 0%nat) as Hz by lia.
  apply size_empty_inv in Hz. set_solver.
Qed.

Lemma known_mines_sound (s : Sentence) (c : Cell) :
  holds H s → c ∈ Sent.known_mines s → c ∈ H.
Proof.
  unfold holds, Sent.known_mines. intros Hs.
  case_decide as Hn; [| set_solver]. intros Hc.
  assert (cells s ∩ H = cells s) as Heq.
  { apply set_subseteq_size_eq; [set_solver | lia]. }
  set_solver.
Qed.

Lemma sound_mark_safe (c : Cell) (st : AI) :
  c ∉ H → sound H st → sound H (mark_safe c st).
Proof.
  intros Hc (Hm & Hs & Hk). unfold sound; simpl_state.
  split; [done |]. split; [set_solver |].
  apply Forall_fmap. eapply Forall_impl; [exact Hk |].
  intros s. simpl_state. by apply holds_mark_safe.
Qed.

Lemma sound_mark_mine (c : Cell) (st : AI) :
  c ∈ H → sound H st → sound H (mark_mine c st).
Proof.
  intros Hc (Hm & Hs & Hk). unfold sound; simpl_state.
  split; [set_solver |]. split; [done |].
  apply Forall_fmap. eapply Forall_impl; [exact Hk |].
  intros s. simpl_state. by apply holds_mark_mine.
Qed.

Lemma sound_mark_safes (l : list Cell) (st : AI) :
  (∀ c, c ∈ l → c ∉ H) → sound H st → sound H (mark_safes l st).
Proof.
  revert st. induction l as [| c l IH]; intros st Hl Hst; [done |].
  cbn [mark_safes foldl]. apply IH.
  - intros d Hd. apply Hl. by right.
  - apply sound_mark_safe; [| done]. apply Hl. by left.
Qed.

Lemma sound_mark_mines (l : list Cell) (st : AI) :
  (∀ c, c ∈ l → c ∈ H) → sound H st → sound H (mark_mines l st).
Proof.
  revert st. induction l as [| c l IH]; intros st Hl Hst; [done |].
  cbn [mark_mines foldl]. apply IH.
  - intros d Hd. apply Hl. by right.
  - apply sound_mark_mine; [| done]. apply Hl. by left.
Qed.

Lemma sound_extract_sentence (sen : Sentence) (st : AI) :
  holds H sen → sound H st → sound H (extract_sentence sen st).
Proof.
  intros Hsen Hst. unfold extract_sentence.
  apply sound_mark_mines.
  - intros c Hc. apply elem_of_elements in Hc.
    by eapply known_mines_sound.
  - apply sound_mark_safes; [| done].
    intros c Hc. apply elem_of_elements in Hc.
    by eapply known_safes_sound.
Qed.

Lemma sound_extract_loop (fuel i : nat) (st : AI) :
  sound H st → sound H (extract_loop fuel i st).
Proof.
  revert i st. induction fuel as [| fuel IH]; intros i st Hst;
    cbn [extract_loop]; [done |].
  destruct (knowledge st !! i) as [sen |] eqn:Hi; [| done].
  apply IH. apply sound_extract_sentence; [| done].
  destruct Hst as (_ & _ & Hk).
  eapply Forall_lookup_1; [exact Hk | exact Hi].
Qed.

Lemma holds_difference (s b : Sentence) :
  holds H s → holds H b → cells s ⊆ cells b →
  holds H {| cells := cells b ∖ cells s; count := count b - count s |}.
Proof.
  unfold holds. intros Hs Hb Hsub. simpl_state. rewrite <- Hs, <- Hb.
  replace (cells b ∩ H) with ((cells s ∩ H) ∪ ((cells b ∖ cells s) ∩ H)).
  - rewrite (size_union (cells s ∩ H)) by set_solver. lia.
  - apply set_eq. intros x. destruct (decide (x ∈ cells s)); set_solver.
Qed.

Lemma select_pair_Some (sen1 sen2 : Sentence) (small big : gset Cell) (d : Z) :
  select_pair sen1 sen2 = Some (small, big, d) →
  ∃ s b, ((s = sen2 ∧ b = sen1) ∨ (s = sen1 ∧ b = sen2))
         ∧ small = cells s ∧ big = cells b ∧ d = count b - count s
         ∧ (size small < size big)%nat ∧ size small ≠ 0%nat.
Proof.
  unfold select_pair. intros Hsel.
  repeat case_bool_decide; simplify_eq.
  - exists sen2, sen1. intuition.
  - exists sen1, sen2. intuition.
Qed.

Lemma sound_append (s : Sentence) (st : AI) :
  holds H s → sound H st → sound H (set_knowledge (knowledge st ++ [s]) st).
Proof.
  intros Hs (Hm & Hsf & Hk). unfold sound; simpl_state.
  split; [done |]. split; [done |]. apply Forall_app. split; [done |].
  by apply Forall_singleton.
Qed.

Lemma sound_derive_pair (sen1 sen2 : Sentence) (st : AI) :
  holds H sen1 → holds H sen2 → sound H st →
  sound H (derive_pair sen1 sen2 st).
Proof.
  intros H1 H2 Hst. unfold derive_pair.
  destruct (select_pair sen1 sen2) as [[[small big] d] |] eqn:Hsel; [| done].
  apply select_pair_Some in Hsel
    as (s & b & Hsb & -> & -> & -> & Hlt & Hne).
  assert (holds H s ∧ holds H b) as [Hs Hb]
    by (destruct Hsb as [[-> ->] | [-> ->]]; done).
  case_decide as Hsub; [| done].
  pose proof (holds_difference s b Hs Hb Hsub) as Hd.
  set (dsen := {| cells := cells b ∖ cells s; count := count b - count s |})
    in *.
  case_decide as Hone; [| by apply sound_append].
  destruct (set_pop (cells b ∖ cells s)) as [c |] eqn:Hpop;
    [| by repeat case_decide].
  apply elem_of_set_pop in Hpop.
  destruct (decide (count b - count s = 0)) as [H0 | H0].
  - rewrite decide_False by lia. cbn [from_option].
    apply sound_mark_safe; [| done].
    apply (known_safes_sound dsen c Hd).
    unfold Sent.known_safes. by rewrite decide_True.
  - case_decide as Hc1; [| done]. cbn [from_option].
    apply sound_mark_mine; [| done].
    apply (known_mines_sound dsen c Hd).
    unfold Sent.known_mines. rewrite decide_True; [done |].
    subst dsen. simpl_state. lia.
Qed.

Lemma sound_inner_loop (sen1 : Sentence) (L : list Sentence) (st : AI) :
  holds H sen1 → Forall (holds H) L → sound H st →
  sound H (inner_loop sen1 L st).
Proof.
  intros H1 HL. unfold inner_loop. revert st.
  induction HL as [| sen2 L H2 HL IH]; intros st Hst; cbn [foldl]; [done |].
  apply IH. by apply sound_derive_pair.
Qed.

Lemma Forall_list_remove (P : Sentence → Prop) (x : Sentence)
    (L : list Sentence) :
  Forall P L → Forall P (list_remove x L).
Proof.
  induction 1 as [| y L Hy HL IH]; cbn [list_remove]; [done |].
  case_decide; [done |]. by constructor.
Qed.

Lemma sound_outer_loop (fuel i : nat) (L : list Sentence) (st : AI) :
  Forall (holds H) L → sound H st → sound H (outer_loop fuel i L st).
Proof.
  revert i L st. induction fuel as [| fuel IH]; intros i L st HL Hst;
    cbn [outer_loop]; [done |].
  destruct (L !! i) as [sen1 |] eqn:Hi; [| done].
  pose proof (Forall_list_remove _ sen1 L HL) as HL'.
  apply IH; [done |]. apply sound_inner_loop; [| done | done].
  eapply Forall_lookup_1; [exact HL | exact Hi].
Qed.

Lemma holds_new_sentence (cell : Cell) (st : AI) :
  sound H st →
  holds H (new_sentence cell (true_count H (height st) (width st) cell) st).
Proof.
  intros (Hm & Hs & _). unfold holds, new_sentence, true_count. simpl_state.
  rewrite neighbors_to_cell_mines.
  set (A := adj_set (height st) (width st) cell).
  set (N := (neighbors_to_cell st cell).1).
  assert (∀ n, n ∈ N ↔ n ∈ A ∧ (n ∉ mines st) ∧ (n ∉ safes st)) as HN.
  { intros n. unfold N, A. rewrite neighbors_to_cell_cells, elem_of_adj_set.
    done. }
  assert (A ∩ H = (N ∩ H) ∪ filter (fun n => n ∈ mines st) A) as ->.
  { apply set_eq. intros n.
    rewrite elem_of_union, !elem_of_intersection, elem_of_filter, HN.
    destruct (decide (n ∈ mines st)); set_solver. }
  rewrite (size_union (N ∩ H)); [lia |].
  intros n. rewrite elem_of_intersection, elem_of_filter, HN. tauto.
Qed.

Lemma sound_record_move (cell : Cell) (st : AI) :
  cell ∉ H → sound H st → sound H (record_move cell st).
Proof.
  intros Hc (Hm & Hs & Hk). unfold sound; simpl_state.
  split; [done |]. split; [set_solver | done].
Qed.

Lemma sound_add_sentence (s : Sentence) (st : AI) :
  holds H s → sound H st → sound H (add_sentence s st).
Proof.
  intros Hs Hst. unfold add_sentence. case_decide; [done |].
  by apply sound_append.
Qed.

(** One probe that obeys the board keeps the engine sound. *)
Lemma sound_add_knowledge (cell : Cell) (st : AI) :
  cell ∉ H → sound H st →
  sound H (add_knowledge cell (true_count H (height st) (width st) cell) st).
Proof.
  intros Hc Hst. unfold add_knowledge.
  pose proof (sound_record_move cell st Hc Hst) as H1.
  pose proof (holds_new_sentence cell (record_move cell st) H1) as Hnew.
  change (height (record_move cell st)) with (height st) in Hnew.
  change (width (record_move cell st)) with (width st) in Hnew.
  pose proof (sound_add_sentence _ _ Hnew H1) as H3.
  unfold derive_pass, extract_pass.
  match goal with
  | |- context [extract_loop ?n 0%nat ?s] =>
      pose proof (sound_extract_loop n 0%nat s H3) as H4
  end.
  apply sound_outer_loop; [| exact H4]. by destruct H4 as (_ & _ & ?).
Qed.

Lemma sound_init (h w : Z) : sound H (init h w).
Proof. unfold sound, init; simpl_state. set_solver. Qed.

Lemma sound_disjoint (st : AI) : sound H st → mines st ## safes st.
Proof. intros (Hm & Hs & _). set_solver. Qed.

End Soundness.

(** ** Move selection *)

Section Moves.

Lemma safe_move_loop_frame (order : list Cell) (st : AI) :
  let st' := (safe_move_loop order st).2 in
  height st' = height st ∧ width st' = width st ∧ mines st' = mines st
  ∧ safes st' = safes st ∧ knowledge st' = knowledge st.
Proof.
  induction order as [| i rest IH]; cbn [safe_move_loop]; [done |].
  case_decide; [exact IH | done].
Qed.

Lemma safe_move_loop_Some (order : list Cell) (st : AI) (c : Cell) :
  (safe_move_loop order st).1 = Some c →
  c ∈ order ∧ (c ∉ moves_made st)
  ∧ (safe_move_loop order st).2 = set_moves_made ({[c]} ∪ moves_made st) st.
Proof.
  induction order as [| i rest IH]; cbn [safe_move_loop]; [done |].
  case_decide as Hi.
  - intros Hc. destruct (IH Hc) as (? & ? & ?). split; [by right | done].
  - cbn [fst snd]. intros [= ->]. split; [by left | done].
Qed.

Lemma safe_move_loop_None (order : list Cell) (st : AI) :
  (safe_move_loop order st).1 = None →
  (∀ c, c ∈ order → c ∈ moves_made st) ∧ (safe_move_loop order st).2 = st.
Proof.
  induction order as [| i rest IH]; cbn [safe_move_loop].
  - intros _. split; [| done]. intros c Hc. by apply elem_of_nil in Hc.
  - case_decide as Hi; [| done]. intros Hn. destruct (IH Hn) as [Hall Hst].
    split; [| done]. intros c [-> | Hc]%elem_of_cons; auto.
Qed.

Lemma make_random_move_frame (r : nat) (st : AI) :
  let st' := (make_random_move r st).2 in
  height st' = height st ∧ width st' = width st ∧ mines st' = mines st
  ∧ safes st' = safes st ∧ knowledge st' = knowledge st.
Proof.
  unfold make_random_move. case_decide; [done |].
  by destruct (future_moves st !! _).
Qed.

Lemma make_random_move_Some (r : nat) (st : AI) (c : Cell) :
  (make_random_move r st).1 = Some c →
  (c ∉ mines st) ∧ (c ∉ moves_made st)
  ∧ (make_random_move r st).2 = set_moves_made ({[c]} ∪ moves_made st) st.
Proof.
  unfold make_random_move. case_decide; [done |].
  destruct (future_moves st !! _) as [m |] eqn:Hm; [| done].
  cbn [fst snd]. intros [= ->].
  apply list_elem_of_lookup_2 in Hm. unfold future_moves in Hm.
  apply list_elem_of_filter in Hm as [[? ?] _]. done.
Qed.

End Moves.

(** ** The claims about the bookkeeping *)

(** C9.  [neighbors_to_cell] and the count adjustment of [add_knowledge]
    build the sentence whose cells are exactly the in-bounds cells
    8-adjacent to [cell], other than [cell], that are neither in [mines]
    nor in [safes], and whose count is [cnt] minus the number of
    in-bounds adjacent cells that are in [mines]; [adj_set] is that
    neighbourhood; replacing [moves_made] by any other set changes
    nothing, so membership in [moves_made] never excludes a neighbour. *)
Theorem neighbor_constraint_exact (st : AI) (cell : Cell) (cnt : Z) :
  let s := new_sentence cell cnt st in
  let A := adj_set (height st) (width st) cell in
  (∀ n, n ∈ A ↔ adjacent (height st) (width st) cell n)
  ∧ cells s = filter (fun n => (n ∉ mines st) ∧ (n ∉ safes st)) A
  ∧ count s = cnt - Z.of_nat (size (filter (fun n => n ∈ mines st) A))
  ∧ (∀ mm, new_sentence cell cnt (set_moves_made mm st) = s).
Proof.
  cbn zeta. split; [| split; [| split]].
  - intros n. apply elem_of_adj_set.
  - apply set_eq. intros n. unfold new_sentence. simpl_state.
    rewrite neighbors_to_cell_cells, elem_of_filter, elem_of_adj_set. tauto.
  - unfold new_sentence. simpl_state. by rewrite neighbors_to_cell_mines.
  - intros mm. reflexivity.
Qed.

(** C10.  With [order] the order in which the cells of [safes] are
    iterated, [make_safe_move] leaves the board size, [mines], [safes]
    and [knowledge] as they are; it returns a cell exactly when
    [safes ∖ moves_made] is not empty, that cell is in
    [safes ∖ moves_made], and the only change is its addition to
    [moves_made]; otherwise it returns nothing and changes nothing. *)
Theorem make_safe_move_reserves (order : list Cell) (st : AI) :
  (∀ c, c ∈ order ↔ c ∈ safes st) →
  let r := (make_safe_move order st).1 in
  let st' := (make_safe_move order st).2 in
  (mines st' = mines st ∧ safes st' = safes st
   ∧ knowledge st' = knowledge st
   ∧ height st' = height st ∧ width st' = width st)
  ∧ (safes st ∖ moves_made st ≠ ∅ ↔ is_Some r)
  ∧ match r with
    | Some c => c ∈ safes st ∖ moves_made st
                ∧ st' = set_moves_made ({[c]} ∪ moves_made st) st
    | None => st' = st
    end.
Proof.
  intros Horder. cbn zeta. unfold make_safe_move.
  pose proof (safe_move_loop_frame order st) as (Hh & Hw & Hm & Hs & Hk).
  split; [done |].
  destruct (safe_move_loop order st).1 as [c |] eqn:Hr.
  - apply safe_move_loop_Some in Hr as (Hc & Hnm & Hst).
    apply Horder in Hc. split; [| split; [set_solver | done]].
    split; [by eauto | set_solver].
  - apply safe_move_loop_None in Hr as [Hall Hst].
    split; [| done]. split; [| by intros [? ?]].
    intros Hne. destruct Hne. apply set_eq. intros c.
    rewrite elem_of_difference, <- Horder. set_solver.
Qed.

(** [make_safe_move_reserves] at a state with two safe cells, one of them
    already played: the other one is returned. *)
Lemma make_safe_move_reserves_witness :
  (∀ c, c ∈ [(0, 0); (0, 1)] ↔
        c ∈ safes (set_safes {[(0, 0); (0, 1)]}
                     (set_moves_made {[(0, 0)]} (init 2 2))))
  ∧ is_Some (make_safe_move [(0, 0); (0, 1)]
               (set_safes {[(0, 0); (0, 1)]}
                  (set_moves_made {[(0, 0)]} (init 2 2)))).1.
Proof.
  assert (∀ c, c ∈ [(0, 0); (0, 1)] ↔
               c ∈ safes (set_safes {[(0, 0); (0, 1)]}
                            (set_moves_made {[(0, 0)]} (init 2 2))))
    as Hord by (intros c; simpl_state; set_solver).
  split; [exact Hord |].
  destruct (make_safe_move_reserves _ _ Hord) as (_ & Hiff & _).
  apply Hiff. simpl_state. unfold init; simpl_state.
  intros Hempty. assert ((0, 1) ∈ (∅ : gset Cell)) as Hin; [| set_solver].
  rewrite <- Hempty. set_solver.
Defined.

(** C6 (as amended).  [add_knowledge] preserves [moves_made ⊆ safes], and
    so does [make_safe_move], which iterates over cells of [safes].
    [make_random_move] does not: when it returns a cell it adds that cell
    to [moves_made] and leaves [safes] as it is, so that afterwards
    [moves_made] is within [safes] plus the returned cell; when it
    returns nothing the state is unchanged. *)
Theorem moves_made_within_safes (st : AI) :
  moves_made st ⊆ safes st →
  (∀ cell cnt,
      moves_made (add_knowledge cell cnt st)
      ⊆ safes (add_knowledge cell cnt st))
  ∧ (∀ order, (∀ c, c ∈ order → c ∈ safes st) →
      moves_made (make_safe_move order st).2
      ⊆ safes (make_safe_move order st).2)
  ∧ (∀ r, match (make_random_move r st).1 with
          | Some c =>
              moves_made (make_random_move r st).2 = {[c]} ∪ moves_made st
              ∧ safes (make_random_move r st).2 = safes st
              ∧ moves_made (make_random_move r st).2
                ⊆ safes (make_random_move r st).2 ∪ {[c]}
          | None => (make_random_move r st).2 = st
          end).
Proof.
  intros Hinv. split; [| split].
  - intros cell cnt.
    destruct (grows_add_knowledge cell cnt st) as (_ & _ & -> & _ & Hs).
    simpl_state. set_solver.
  - intros order Horder. unfold make_safe_move.
    pose proof (safe_move_loop_frame order st) as (_ & _ & _ & Hs & _).
    cbn zeta in Hs. rewrite Hs.
    destruct (safe_move_loop order st).1 as [c |] eqn:Hr.
    + apply safe_move_loop_Some in Hr as (Hc & _ & ->). simpl_state.
      apply Horder in Hc. set_solver.
    + apply safe_move_loop_None in Hr as [_ ->]. done.
  - intros r.
    pose proof (make_random_move_frame r st) as (_ & _ & _ & Hs & _).
    destruct (make_random_move r st).1 as [c |] eqn:Hr.
    + apply make_random_move_Some in Hr as (_ & _ & ->). simpl_state.
      split; [done |]. split; [done |]. set_solver.
    + unfold make_random_move in *. case_decide; [done |].
      by destruct (future_moves st !! _).
Qed.

(** [moves_made_within_safes] after one probe of a 3 x 3 board. *)
Lemma moves_made_within_safes_witness :
  moves_made (add_knowledge (1, 1) 1 (init 3 3))
  ⊆ safes (add_knowledge (1, 1) 1 (init 3 3))
  ∧ moves_made (add_knowledge (0, 0) 1 (add_knowledge (1, 1) 1 (init 3 3)))
    ⊆ safes (add_knowledge (0, 0) 1 (add_knowledge (1, 1) 1 (init 3 3))).
Proof.
  assert (moves_made (add_knowledge (1, 1) 1 (init 3 3))
          ⊆ safes (add_knowledge (1, 1) 1 (init 3 3))) as Hinv by by_compute.
  split; [exact Hinv |].
  exact (proj1 (moves_made_within_safes _ Hinv) (0, 0) 1).
Defined.

(** C6, as stated, fails: on a fresh 1 x 1 board the invariant holds, and
    [make_random_move] reserves the cell [(0, 0)], which is not in
    [safes]. *)
Lemma fallback_move_outside_safes :
  moves_made (init 1 1) ⊆ safes (init 1 1)
  ∧ (make_random_move 0 (init 1 1)).1 = Some (0, 0)
  ∧ ¬ (moves_made (make_random_move 0 (init 1 1)).2
       ⊆ safes (make_random_move 0 (init 1 1)).2).
Proof. split; [| split]; by_compute. Qed.

(** ** Consistency of [mines] and [safes] *)

Section Consistency.

Variable H : gset Cell.

Lemma sound_step (st : AI) (o : op) :
  inbound H st o → sound H st → sound H (step st o).
Proof.
  destruct o as [cell cnt | order | r]; cbn [inbound step].
  - intros [Hc ->]. by apply sound_add_knowledge.
  - intros _ (Hm & Hs & Hk). unfold make_safe_move.
    pose proof (safe_move_loop_frame order st) as (_ & _ & Em & Es & Ek).
    cbn zeta in *. unfold sound. by rewrite Em, Es, Ek.
  - intros _ (Hm & Hs & Hk).
    pose proof (make_random_move_frame r st) as (_ & _ & Em & Es & Ek).
    cbn zeta in *. unfold sound. by rewrite Em, Es, Ek.
Qed.

Lemma sound_run (ops : list op) (st : AI) :
  obeys H st ops → sound H st → sound H (run ops st).
Proof.
  revert st. induction ops as [| o ops IH]; intros st; cbn [obeys]; [done |].
  intros [Ho Hops] Hst. unfold run. cbn [foldl]. apply IH; [done |].
  by apply sound_step.
Qed.

Lemma obeys_take (ops : list op) (st : AI) (k : nat) :
  obeys H st ops → obeys H st (take k ops).
Proof.
  revert st k. induction ops as [| o ops IH]; intros st [| k];
    cbn [obeys take]; try done.
  intros [Ho Hops]. split; [done |]. by apply IH.
Qed.

End Consistency.

(** C2.  On a board with hazards [H], take any sequence of calls of
    [add_knowledge], [make_safe_move] and [make_random_move], from a new
    engine, in which every probed cell is not a hazard and comes with the
    true number of hazards among its in-bounds neighbours.  After every
    prefix of the sequence [mines] and [safes] are disjoint.  (That the
    cell was never probed before is not needed.) *)
Theorem mines_safes_disjoint (H : gset Cell) (h w : Z) (ops : list op)
    (k : nat) :
  obeys H (init h w) ops →
  mines (run (take k ops) (init h w)) ## safes (run (take k ops) (init h w)).
Proof.
  intros Hops. apply (sound_disjoint H). apply sound_run.
  - by apply obeys_take.
  - apply sound_init.
Qed.

(** [mines_safes_disjoint] on the 3 x 3 board with hazards at [(0, 0)] and
    [(0, 1)], for five probes mixed with the two kinds of move request. *)
Lemma mines_safes_disjoint_witness :
  obeys {[(0, 0); (0, 1)]} (init 3 3)
    [Ingest (2, 2) 0; PickSafe [(1, 1); (1, 2); (2, 1)]; Ingest (1, 0) 2;
     PickFallback 3; Ingest (1, 2) 1; Ingest (1, 1) 2; Ingest (2, 1) 0]
  ∧ mines (run (take 7 [Ingest (2, 2) 0; PickSafe [(1, 1); (1, 2); (2, 1)];
                        Ingest (1, 0) 2; PickFallback 3; Ingest (1, 2) 1;
                        Ingest (1, 1) 2; Ingest (2, 1) 0]) (init 3 3))
    ## safes (run (take 7 [Ingest (2, 2) 0;
                           PickSafe [(1, 1); (1, 2); (2, 1)];
                           Ingest (1, 0) 2; PickFallback 3; Ingest (1, 2) 1;
                           Ingest (1, 1) 2; Ingest (2, 1) 0]) (init 3 3)).
Proof.
  assert (obeys {[(0, 0); (0, 1)]} (init 3 3)
            [Ingest (2, 2) 0; PickSafe [(1, 1); (1, 2); (2, 1)];
             Ingest (1, 0) 2; PickFallback 3; Ingest (1, 2) 1;
             Ingest (1, 1) 2; Ingest (2, 1) 0]) as Hops by by_compute.
  split; [exact Hops |].
  exact (mines_safes_disjoint {[(0, 0); (0, 1)]} 3 3 _ 7 Hops).
Defined.

(** ** Malformed input *)

(** C8 (as amended).  [add_knowledge] checks nothing: on malformed input
    as on any other the call goes through, the cell is recorded in
    [moves_made] and in [safes], and the sentence built from the unchecked
    count is in the knowledge base after step 3. *)
Theorem add_knowledge_absorbs (st : AI) (cell : Cell) (cnt : Z) :
  malformed st cell cnt →
  cell ∈ moves_made (add_knowledge cell cnt st)
  ∧ cell ∈ safes (add_knowledge cell cnt st)
  ∧ new_sentence cell cnt (record_move cell st)
    ∈ knowledge (ingest_sentence cell cnt st).
Proof.
  intros _.
  destruct (grows_add_knowledge cell cnt st) as (_ & _ & -> & _ & Hs).
  simpl_state. split; [set_solver |]. split; [set_solver |].
  unfold ingest_sentence, add_sentence. cbn zeta.
  case_decide; [done |]. simpl_state. set_solver.
Qed.

(** [add_knowledge_absorbs] for a negative count on a new 3 x 3 board. *)
Lemma add_knowledge_absorbs_witness :
  malformed (init 3 3) (0, 0) (-1)
  ∧ (0, 0) ∈ safes (add_knowledge (0, 0) (-1) (init 3 3)).
Proof.
  assert (malformed (init 3 3) (0, 0) (-1)) as Hbad by by_compute.
  split; [exact Hbad |].
  exact (proj1 (proj2 (add_knowledge_absorbs (init 3 3) (0, 0) (-1) Hbad))).
Defined.

(** C8, as stated, fails: a negative count, a count above the number of
    neighbours and a cell off the board are all accepted, and each call
    changes the state. *)
Lemma malformed_input_accepted :
  (malformed (init 3 3) (0, 0) (-1)
   ∧ add_knowledge (0, 0) (-1) (init 3 3) ≠ init 3 3
   ∧ knowledge (add_knowledge (0, 0) (-1) (init 3 3))
     = [{| cells := {[(0, 1); (1, 0); (1, 1)]}; count := -1 |}])
  ∧ (malformed (init 3 3) (0, 0) 9
     ∧ add_knowledge (0, 0) 9 (init 3 3) ≠ init 3 3)
  ∧ (malformed (init 3 3) (7, 7) 0
     ∧ add_knowledge (7, 7) 0 (init 3 3) ≠ init 3 3).
Proof. repeat split; by_compute. Qed.

(** ** The extraction pass (step 4) *)

Section Extraction.

Lemma length_extract_sentence (sen : Sentence) (st : AI) :
  length (knowledge (extract_sentence sen st)) = length (knowledge st).
Proof.
  unfold extract_sentence.
  by rewrite knowledge_mark_mines, knowledge_mark_safes, !length_fmap.
Qed.

Lemma length_extract_loop (fuel i : nat) (st : AI) :
  length (knowledge (extract_loop fuel i st)) = length (knowledge st).
Proof.
  revert i st. induction fuel as [| fuel IH]; intros i st;
    cbn [extract_loop]; [done |].
  destruct (knowledge st !! i) as [sen |]; [| done].
  by rewrite IH, length_extract_sentence.
Qed.

Lemma extract_loop_off_end (fuel i : nat) (st : AI) :
  (length (knowledge st) ≤ i)%nat → extract_loop fuel i st = st.
Proof.
  intros Hi. destruct fuel as [| fuel]; cbn [extract_loop]; [done |].
  by rewrite lookup_ge_None_2.
Qed.

(** The scan up to index [i + a], then the rest. *)
Lemma extract_loop_split (a b i : nat) (st : AI) :
  extract_loop (a + b) i st = extract_loop b (i + a) (extract_loop a i st).
Proof.
  revert i st. induction a as [| a IH]; intros i st.
  - cbn [extract_loop Nat.add]. by rewrite Nat.add_0_r.
  - cbn [extract_loop Nat.add].
    destruct (knowledge st !! i) as [sen |] eqn:Hi.
    + rewrite IH. f_equal. lia.
    + symmetry. apply extract_loop_off_end.
      apply lookup_ge_None_1 in Hi. lia.
Qed.

(** The fuel given by [extract_pass] is enough: the scan stops because
    the index has reached the end of the list. *)
Lemma extract_loop_fuel (fuel i : nat) (st : AI) :
  (length (knowledge st) ≤ fuel + i)%nat →
  extract_loop (S fuel) i st = extract_loop fuel i st.
Proof.
  intros Hlen. replace (S fuel) with (fuel + 1)%nat by lia.
  rewrite extract_loop_split. apply extract_loop_off_end.
  rewrite length_extract_loop. lia.
Qed.

(** What scanning the sentence at index [i] does to the state. *)
Lemma extract_sentence_scanned (st : AI) (i : nat) (sen : Sentence) :
  knowledge st !! i = Some sen →
  Sent.known_safes sen ⊆ safes (extract_sentence sen st)
  ∧ Sent.known_mines sen ⊆ mines (extract_sentence sen st)
  ∧ ∃ sen', knowledge (extract_sentence sen st) !! i = Some sen'
            ∧ Sent.known_safes sen' = ∅ ∧ Sent.known_mines sen' = ∅.
Proof.
  intros Hi. unfold extract_sentence.
  destruct (frame_mark_mines (elements (Sent.known_mines sen))
              (mark_safes (elements (Sent.known_safes sen)) st))
    as (_ & _ & _ & ->).
  rewrite safes_mark_safes, mines_mark_mines, !list_to_set_elements_L.
  split; [set_solver |]. split; [set_solver |].
  rewrite knowledge_mark_mines, knowledge_mark_safes, !list_lookup_fmap, Hi.
  cbn [fmap option_fmap option_map].
  rewrite Sent_mark_mines_eq by apply NoDup_elements.
  rewrite !list_to_set_elements_L. simpl_state.
  eexists. split; [reflexivity |].
  unfold Sent.known_safes, Sent.known_mines. simpl_state.
  destruct (decide (count sen = 0)) as [H0 | H0],
           (decide (Z.of_nat (size (cells sen)) = count sen)) as [Hn | Hn].
  - assert (cells sen ∖ cells sen ∖ cells sen = ∅) as -> by (clear; set_solver).
    split; case_decide; done.
  - assert (cells sen ∖ cells sen ∖ ∅ = ∅) as -> by (clear; set_solver).
    split; case_decide; done.
  - assert (cells sen ∖ ∅ ∖ cells sen = ∅) as -> by (clear; set_solver).
    split; case_decide; done.
  - assert (cells sen ∖ ∅ ∖ ∅ = cells sen) as -> by (clear; set_solver).
    assert ((cells sen ∖ ∅) ∩ ∅ = ∅) as -> by (clear; set_solver).
    rewrite size_empty, Z.sub_0_r.
    rewrite decide_False by done. by rewrite decide_False.
Qed.

End Extraction.

(** What one scan does.  The extraction pass is one scan of [knowledge]
    in list order.  Let [sen] be the sentence at index [i] when the scan
    reaches it.  Every cell of its [known_safes()] and [known_mines()] is
    in [safes] and [mines] when the pass ends; right after [sen] has been
    scanned, the sentence at index [i] reports nothing any more; and when
    [i] is the last index, that state is the one the pass ends in.  An
    earlier sentence may report cells again once later ones have been
    scanned. *)
Theorem extract_scan_settles (st : AI) (i : nat) (sen : Sentence) :
  knowledge (extract_loop i 0 st) !! i = Some sen →
  let before := extract_loop i 0 st in
  let after := extract_sentence sen before in
  (Sent.known_safes sen ⊆ safes (extract_pass st)
   ∧ Sent.known_mines sen ⊆ mines (extract_pass st))
  ∧ (∃ sen', knowledge after !! i = Some sen'
             ∧ Sent.known_safes sen' = ∅ ∧ Sent.known_mines sen' = ∅)
  ∧ (S i = length (knowledge st) → extract_pass st = after).
Proof.
  intros Hi. cbn zeta.
  destruct (extract_sentence_scanned _ _ _ Hi) as (Hs & Hm & Hsen').
  assert (i < length (knowledge st))%nat as Hlt.
  { apply lookup_lt_Some in Hi. by rewrite length_extract_loop in Hi. }
  assert (extract_pass st
          = extract_loop (length (knowledge st) - S i) (S i)
              (extract_sentence sen (extract_loop i 0 st))) as Hpass.
  { unfold extract_pass.
    replace (length (knowledge st))
      with (i + S (length (knowledge st) - S i))%nat at 1 by lia.
    rewrite extract_loop_split. cbn [extract_loop Nat.add]. by rewrite Hi. }
  split; [| split; [done |]].
  - rewrite Hpass.
    destruct (grows_extract_loop (length (knowledge st) - S i) (S i)
                (extract_sentence sen (extract_loop i 0 st)))
      as (_ & _ & _ & Hgm & Hgs).
    set_solver.
  - intros Hlast. rewrite Hpass.
    replace (length (knowledge st) - S i)%nat with 0%nat by lia. done.
Qed.

(** [extract_scan_settles] for the second probe of a 1 x 4 board with its
    hazard at [(0, 0)]: the last sentence, [{(0, 2)} = 0], is scanned at
    index 1. *)
Lemma extract_scan_settles_witness :
  knowledge (extract_loop 1 0
               (ingest_sentence (0, 3) 0 (add_knowledge (0, 1) 1 (init 1 4))))
    !! 1%nat = Some {| cells := {[(0, 2)]}; count := 0 |}
  ∧ Sent.known_safes {| cells := {[(0, 2)]}; count := 0 |}
    ⊆ safes (extract_pass
               (ingest_sentence (0, 3) 0
                  (add_knowledge (0, 1) 1 (init 1 4)))).
Proof.
  assert (knowledge
            (extract_loop 1 0
               (ingest_sentence (0, 3) 0 (add_knowledge (0, 1) 1 (init 1 4))))
            !! 1%nat = Some {| cells := {[(0, 2)]}; count := 0 |}) as Hi
    by by_compute.
  split; [exact Hi |].
  exact (proj1 (proj1 (extract_scan_settles _ _ _ Hi))).
Defined.

(** A mine left unrecorded.  On the 1 x 4 board with its hazard at [(0, 0)],
    probe [(0, 1)] (count 1) and then [(0, 3)] (count 0).  In the second
    call the scan passes [{(0, 0), (0, 2)} = 1] first and then marks
    [(0, 2)] safe from [{(0, 2)} = 0]; the pass ends with the sentence
    [{(0, 0)} = 1], whose [known_mines()] is not within [mines]. *)
Lemma extract_pass_leaves_known_mine :
  obeys {[(0, 0)]} (init 1 4) [Ingest (0, 1) 1; Ingest (0, 3) 0]
  ∧ {| cells := {[(0, 0)]}; count := 1 |}
    ∈ knowledge (extract_pass
                   (ingest_sentence (0, 3) 0
                      (add_knowledge (0, 1) 1 (init 1 4))))
  ∧ ¬ (Sent.known_mines {| cells := {[(0, 0)]}; count := 1 |}
       ⊆ mines (extract_pass
                  (ingest_sentence (0, 3) 0
                     (add_knowledge (0, 1) 1 (init 1 4))))).
Proof. split; [| split]; by_compute. Qed.

(** C4: what the code does at the claim's failing input.  On the 1 x 7
    board with hazards at [(0, 2)], [(0, 4)] and [(0, 6)], probe [(0, 1)]
    (count 1) and then [(0, 3)] (count 2).  In the second call the scan
    of step 4 passes [{(0, 0), (0, 2)} = 1] first and then marks
    [(0, 2)] and [(0, 4)] as mines from [{(0, 2), (0, 4)} = 2], which
    turns the first sentence into [{(0, 0)} = 0].  The scan is not
    repeated: the pass ends, and the call returns, with this sentence in
    the knowledge base and [(0, 0)] not in [safes], and [make_safe_move]
    finds no move; one more scan would have recorded the cell. *)
Lemma single_scan_leaves_safe_cell :
  let probes := [Ingest (0, 1) 1; Ingest (0, 3) 2] in
  let st3 := ingest_sentence (0, 3) 2 (add_knowledge (0, 1) 1 (init 1 7)) in
  let s := {| cells := {[(0, 0)]}; count := 0 |} in
  obeys {[(0, 2); (0, 4); (0, 6)]} (init 1 7) probes
  ∧ (s ∈ knowledge (extract_pass st3)
     ∧ Sent.known_safes s = {[(0, 0)]}
     ∧ ¬ (Sent.known_safes s ⊆ safes (extract_pass st3)))
  ∧ (s ∈ knowledge (run probes (init 1 7))
     ∧ ((0, 0) ∉ safes (run probes (init 1 7)))
     ∧ (make_safe_move (elements (safes (run probes (init 1 7))))
          (run probes (init 1 7))).1 = None)
  ∧ (0, 0) ∈ safes (extract_pass (extract_pass st3)).
Proof. cbn zeta. repeat split; by_compute. Qed.

(** ** The derivation pass (step 5) *)

Section Derivation.

Lemma derive_pairs_app (ps qs : list (Sentence * Sentence)) (st : AI) :
  derive_pairs (ps ++ qs) st = derive_pairs qs (derive_pairs ps st).
Proof. unfold derive_pairs. apply foldl_app. Qed.

Lemma inner_loop_pairs (sen1 : Sentence) (L : list Sentence) (st : AI) :
  inner_loop sen1 L st = derive_pairs ((fun sen2 => (sen1, sen2)) <$> L) st.
Proof.
  unfold inner_loop, derive_pairs. revert st.
  induction L as [| sen2 L IH]; intros st; cbn [foldl fmap list_fmap];
    [done |].
  apply IH.
Qed.

(** The two loops of step 5 run the loop body on [outer_pairs], in order. *)
Lemma outer_loop_pairs (fuel i : nat) (L : list Sentence) (st : AI) :
  outer_loop fuel i L st = derive_pairs (outer_pairs fuel i L) st.
Proof.
  revert i L st. induction fuel as [| fuel IH]; intros i L st;
    cbn [outer_loop outer_pairs]; [done |].
  destruct (L !! i) as [sen1 |]; [| done].
  by rewrite derive_pairs_app, IH, inner_loop_pairs.
Qed.

Lemma derive_pass_visited (st : AI) :
  derive_pass st = derive_pairs (visited_pairs (knowledge st)) st.
Proof. unfold derive_pass, visited_pairs. apply outer_loop_pairs. Qed.

(** [known_sentences.remove(sen1)] always finds [sen1]: it was read from
    the list, so one element goes. *)
Lemma length_list_remove (x : Sentence) (L : list Sentence) :
  x ∈ L → S (length (list_remove x L)) = length L.
Proof.
  induction L as [| y L IH]; cbn [list_remove length].
  - by intros ?%elem_of_nil.
  - case_decide as Hy; [done |].
    intros [-> | Hin]%elem_of_cons; [done |]. cbn [length]. by rewrite IH.
Qed.

(** The fuel given by [derive_pass] is enough: the loop stops because the
    index has reached the end of the shortened list. *)
Lemma outer_pairs_fuel (fuel i : nat) (L : list Sentence) :
  (length L ≤ fuel + i)%nat →
  outer_pairs (S fuel) i L = outer_pairs fuel i L.
Proof.
  revert i L. induction fuel as [| fuel IH]; intros i L Hlen.
  - cbn [outer_pairs]. by rewrite lookup_ge_None_2 by lia.
  - cbn [outer_pairs] in *.
    destruct (L !! i) as [sen1 |] eqn:Hi; [| done].
    f_equal. apply (IH (S i)).
    apply list_elem_of_lookup_2 in Hi. apply length_list_remove in Hi. lia.
Qed.

Lemma outer_loop_fuel (fuel i : nat) (L : list Sentence) (st : AI) :
  (length L ≤ fuel + i)%nat →
  outer_loop (S fuel) i L st = outer_loop fuel i L st.
Proof.
  intros Hlen. by rewrite !outer_loop_pairs, outer_pairs_fuel.
Qed.

(** On four distinct sentences the loops compare five of the six pairs:
    after [a] is removed the iterator is at index 1 of [[b; c; d]], so
    [b] is never [sen1], and it is gone from the list when [d] could be
    paired with it. *)
Lemma visited_pairs_four (a b c d : Sentence) :
  NoDup [a; b; c; d] →
  visited_pairs [a; b; c; d] = [(a, b); (a, c); (a, d); (c, b); (c, d)].
Proof.
  intros Hnd. apply NoDup_cons in Hnd as [Ha Hnd].
  apply NoDup_cons in Hnd as [Hb _].
  unfold visited_pairs. cbn [length outer_pairs lookup list_lookup].
  cbn [list_remove]. rewrite decide_True by done.
  cbn [lookup list_lookup list_remove fmap list_fmap app].
  rewrite decide_False by (intros ->; apply Hb; set_solver).
  rewrite decide_True by done. done.
Qed.

(** The sentence appended by step 3 is new to the knowledge base. *)
Lemma add_sentence_no_duplicate (s s' : Sentence) (st : AI) :
  knowledge (add_sentence s st) = knowledge st ++ [s'] →
  s' = s ∧ s ∉ knowledge st.
Proof.
  unfold add_sentence. case_decide as Hin; simpl_state.
  - intros Heq. apply (f_equal length) in Heq.
    rewrite length_app in Heq. cbn [length] in Heq. lia.
  - intros Heq. apply app_inv_head in Heq. by simplify_eq.
Qed.

(** [mark_safe], which step 2 does not call, clears the cell from every
    sentence. *)
Lemma mark_safe_propagates (c : Cell) (st : AI) (s : Sentence) :
  s ∈ knowledge (mark_safe c st) → c ∉ cells s.
Proof.
  simpl_state. intros (s0 & -> & _)%list_elem_of_fmap.
  rewrite Sent_mark_safe_eq. simpl_state. set_solver.
Qed.

End Derivation.

(** C5 (as amended).  The sentence that step 3 of [add_knowledge] builds
    from the probe has no cell in [mines] or [safes] at that moment, so
    when it is appended it is fresh. *)
Theorem probe_sentence_fresh (cell : Cell) (cnt : Z) (st : AI) :
  (∀ c, c ∈ cells (new_sentence cell cnt (record_move cell st)) →
        (c ∉ mines (record_move cell st))
        ∧ (c ∉ safes (record_move cell st)))
  ∧ appended_fresh (record_move cell st) (ingest_sentence cell cnt st).
Proof.
  assert (∀ c, c ∈ cells (new_sentence cell cnt (record_move cell st)) →
               (c ∉ mines (record_move cell st))
               ∧ (c ∉ safes (record_move cell st))) as Hfresh.
  { intros c Hc. unfold new_sentence in Hc. cbn [cells] in Hc.
    apply neighbors_to_cell_cells in Hc. tauto. }
  split; [exact Hfresh |].
  intros s Happ. unfold ingest_sentence in Happ. cbn zeta in Happ.
  apply add_sentence_no_duplicate in Happ as [-> _].
  intros c Hc. specialize (Hfresh c Hc). set_solver.
Qed.

(** C5, as stated, fails in the derivation pass.  On the 3 x 3 board with
    hazards at [(0, 0)] and [(0, 1)], probe [(2, 2)], [(1, 0)], [(1, 2)],
    [(1, 1)] and [(2, 1)] with their true counts; none of these cells is
    in a sentence when it is probed.  In the fifth call the pass marks
    [(0, 1)] as a mine from the pair before, and its eleventh pair then
    appends [{(0, 1), (0, 2)} = 1], taken from the snapshot. *)
Lemma derived_sentence_not_fresh :
  let probes := [Ingest (2, 2) 0; Ingest (1, 0) 2; Ingest (1, 2) 1;
                 Ingest (1, 1) 2] in
  let st4 := extract_pass (ingest_sentence (2, 1) 0 (run probes (init 3 3))) in
  let ps := visited_pairs (knowledge st4) in
  let st_mid := derive_pairs (take 10 ps) st4 in
  obeys {[(0, 0); (0, 1)]} (init 3 3) (probes ++ [Ingest (2, 1) 0])
  ∧ probes_unmentioned (init 3 3) (probes ++ [Ingest (2, 1) 0])
  ∧ (0, 1) ∈ mines st_mid
  ∧ ∃ p, ps !! 10%nat = Some p
         ∧ ¬ appended_fresh st_mid (derive_pair p.1 p.2 st_mid).
Proof.
  cbn zeta. split; [by_compute |]. split; [by_compute |].
  split; [by_compute |].
  exists ({| cells := {[(0, 0)]}; count := 1 |},
          {| cells := {[(0, 0); (0, 1); (0, 2)]}; count := 2 |}).
  split; [by_compute |].
  intros Hfresh.
  specialize (Hfresh {| cells := {[(0, 1); (0, 2)]}; count := 1 |}).
  apply (Hfresh ltac:(by_compute) (0, 1)); by_compute.
Qed.

(** ** Step 2 and the sentences (C1) *)

(** C1: what the code does at the claim's failing input.  On a new 3 x 3
    board probe [(0, 0)] (count 1), then [(0, 1)] (count 1).  Step 2 of
    the second call puts [(0, 1)] into [safes] and leaves the knowledge
    base as it was, so the sentence [{(0, 1), (1, 0), (1, 1)} = 1] still
    holds the cell, after step 2 and when the call returns; [mark_safe]
    would have removed it. *)
Lemma probed_cell_stays_in_sentence :
  let st := add_knowledge (0, 0) 1 (init 3 3) in
  let s := {| cells := {[(0, 1); (1, 0); (1, 1)]}; count := 1 |} in
  (∀ cell st0, knowledge (record_move cell st0) = knowledge st0)
  ∧ (0, 1) ∈ safes (record_move (0, 1) st)
  ∧ s ∈ knowledge (record_move (0, 1) st)
  ∧ s ∈ knowledge (add_knowledge (0, 1) 1 st)
  ∧ (0, 1) ∈ cells s
  ∧ s ∉ knowledge (mark_safe (0, 1) st).
Proof. cbn zeta. split; [done |]. repeat split; by_compute. Qed.

(** ** Pairs compared by the derivation pass (C3) *)

(** C3: what the code does at the claim's failing input.  On an 8 x 8
    board with hazards at [(0, 1)], [(7, 7)] and [(7, 0)], probe [(6, 6)],
    [(1, 1)], [(6, 1)] and [(0, 0)], each with count 1.  The snapshot of
    the fourth call has four sentences; the one at index 3,
    [{(0, 1), (1, 0)} = 1], is a subset of the one at index 1, of size 8;
    the loops never reach this pair, in either order, and the pass leaves
    the state as it is.  Removing the current sentence from the list that
    is being iterated makes the iterator skip the sentence at index 1. *)
Lemma subset_pair_not_examined :
  let probes := [Ingest (6, 6) 1; Ingest (1, 1) 1; Ingest (6, 1) 1] in
  let st4 := extract_pass (ingest_sentence (0, 0) 1 (run probes (init 8 8))) in
  let L := knowledge st4 in
  let small := {| cells := {[(0, 1); (1, 0)]}; count := 1 |} in
  obeys {[(0, 1); (7, 7); (7, 0)]} (init 8 8) (probes ++ [Ingest (0, 0) 1])
  ∧ length L = 4%nat
  ∧ ∃ big, L !! 1%nat = Some big ∧ L !! 3%nat = Some small
           ∧ cells small ⊆ cells big
           ∧ size (cells small) = 2%nat ∧ size (cells big) = 8%nat
           ∧ (big, small) ∉ visited_pairs L
           ∧ (small, big) ∉ visited_pairs L
           ∧ length (visited_pairs L) = 5%nat
           ∧ derive_pass st4 = st4.
Proof.
  cbn zeta. split; [by_compute |]. split; [by_compute |].
  eexists. split; [by vm_compute |]. repeat split; by_compute.
Qed.

(** ** Duplicates appended by the derivation pass (C7) *)

(** C7: what the code does at the claim's failing input.  On the 3 x 3
    board with hazards at [(0, 0)], [(0, 1)] and [(1, 0)], probe [(2, 2)]
    (count 0), [(2, 1)] (count 1), [(1, 1)] (count 3) and [(1, 2)]
    (count 1); none of these cells is in a sentence when it is probed.
    In the fourth call the fifth pair of the derivation pass appends the
    sentence [d = {(0, 0), (0, 1), (0, 2)} = 2], which is already in the
    knowledge base, at index 3; the sentence was derived from the same
    pair in the call before. *)
Lemma derived_duplicate_appended :
  let probes := [Ingest (2, 2) 0; Ingest (2, 1) 1; Ingest (1, 1) 3] in
  let st4 := extract_pass (ingest_sentence (1, 2) 1 (run probes (init 3 3))) in
  let ps := visited_pairs (knowledge st4) in
  let st_mid := derive_pairs (take 4 ps) st4 in
  let d := {| cells := {[(0, 0); (0, 1); (0, 2)]}; count := 2 |} in
  obeys {[(0, 0); (0, 1); (1, 0)]} (init 3 3) (probes ++ [Ingest (1, 2) 1])
  ∧ probes_unmentioned (init 3 3) (probes ++ [Ingest (1, 2) 1])
  ∧ ∃ p, ps !! 4%nat = Some p
         ∧ knowledge st_mid !! 3%nat = Some d
         ∧ knowledge (derive_pair p.1 p.2 st_mid) = knowledge st_mid ++ [d].
Proof.
  cbn zeta. split; [by_compute |]. split; [by_compute |].
  eexists. split; [by vm_compute |]. split; by_compute.
Qed.

(** * Further properties of the code *)

(** ** Sentences *)

(** X1.  A sentence never reports cells both as mines and as safe: one of
    [known_mines()] and [known_safes()] is empty. *)
Theorem known_sets_exclusive (s : Sentence) :
  Sent.known_safes s = ∅ ∨ Sent.known_mines s = ∅.
Proof.
  unfold Sent.known_safes, Sent.known_mines.
  destruct (decide (count s = 0)) as [H0 | H0]; [| by left].
  destruct (decide (Z.of_nat (size (cells s)) = count s)) as [Hn | Hn];
    [| by right].
  left. apply leibniz_equiv, size_empty_inv. lia.
Qed.

Lemma Sent_mark_mine_gone (c : Cell) (s : Sentence) :
  c ∉ cells (Sent.mark_mine c s).
Proof. unfold Sent.mark_mine. case_decide; cbn [cells]; set_solver. Qed.

Lemma Sent_mark_safe_gone (c : Cell) (s : Sentence) :
  c ∉ cells (Sent.mark_safe c s).
Proof. unfold Sent.mark_safe. case_decide; cbn [cells]; set_solver. Qed.

(** X2.  After [mark_mine(cell)] or [mark_safe(cell)] the cell is not in
    the sentence, a second call changes nothing, and a call for a cell
    that is not in the sentence changes nothing. *)
Theorem sentence_mark_settles (c : Cell) (s : Sentence) :
  (c ∉ cells (Sent.mark_mine c s))
  ∧ (c ∉ cells (Sent.mark_safe c s))
  ∧ Sent.mark_mine c (Sent.mark_mine c s) = Sent.mark_mine c s
  ∧ Sent.mark_safe c (Sent.mark_safe c s) = Sent.mark_safe c s
  ∧ (c ∉ cells s → Sent.mark_mine c s = s ∧ Sent.mark_safe c s = s).
Proof.
  pose proof (Sent_mark_mine_gone c s) as Hm.
  pose proof (Sent_mark_safe_gone c s) as Hs.
  split; [done |]. split; [done |]. split; [| split].
  - unfold Sent.mark_mine at 1. by rewrite decide_False.
  - unfold Sent.mark_safe at 1. by rewrite decide_False.
  - intros Hc. unfold Sent.mark_mine, Sent.mark_safe.
    by rewrite !decide_False.
Qed.

(** X3.  Take a sentence that is true on a board with hazards [H]: its
    count is the number of its cells that are hazards.  Then its count
    lies between 0 and the number of its cells, [known_mines()] returns
    hazards only and [known_safes()] none, and the sentence stays true
    under [mark_mine] of a hazard and under [mark_safe] of a cell that
    is not one. *)
Theorem sentence_locally_sound (H : gset Cell) (s : Sentence) :
  holds H s →
  (0 ≤ count s ∧ count s ≤ Z.of_nat (size (cells s)))
  ∧ Sent.known_mines s ⊆ H
  ∧ Sent.known_safes s ## H
  ∧ (∀ c, c ∈ H → holds H (Sent.mark_mine c s))
  ∧ (∀ c, c ∉ H → holds H (Sent.mark_safe c s)).
Proof.
  intros Hs. split; [| split; [| split; [| split]]].
  - unfold holds in Hs. rewrite <- Hs.
    assert (size (cells s ∩ H) ≤ size (cells s))%nat
      by (apply subseteq_size; set_solver).
    lia.
  - intros c Hc. by eapply known_mines_sound.
  - intros c Hc Hc'. by eapply known_safes_sound.
  - intros c Hc. by apply holds_mark_mine.
  - intros c Hc. by apply holds_mark_safe.
Qed.

(** [sentence_locally_sound] for [{(0, 0), (0, 1)} = 1] on the board whose
    only hazard is [(0, 1)]. *)
Lemma sentence_locally_sound_witness :
  holds {[(0, 1)]} {| cells := {[(0, 0); (0, 1)]}; count := 1 |}
  ∧ Sent.known_mines {| cells := {[(0, 0); (0, 1)]}; count := 1 |}
    ⊆ {[(0, 1)]}.
Proof.
  assert (holds {[(0, 1)]} {| cells := {[(0, 0); (0, 1)]}; count := 1 |})
    as Hs by (unfold holds; by_compute).
  split; [exact Hs |].
  exact (proj1 (proj2 (sentence_locally_sound _ _ Hs))).
Defined.

(** ** Marking cells in the engine *)

(** X4.  After [mark_mine(cell)] the cell is in [mines] and in no
    sentence, after [mark_safe(cell)] it is in [safes] and in no
    sentence; either call repeated changes nothing more, and neither
    changes the number of sentences, [moves_made] or the board size. *)
Theorem engine_mark_settles (c : Cell) (st : AI) :
  (c ∈ mines (mark_mine c st)
   ∧ Forall (fun s => c ∉ cells s) (knowledge (mark_mine c st))
   ∧ mark_mine c (mark_mine c st) = mark_mine c st)
  ∧ (c ∈ safes (mark_safe c st)
     ∧ Forall (fun s => c ∉ cells s) (knowledge (mark_safe c st))
     ∧ mark_safe c (mark_safe c st) = mark_safe c st)
  ∧ length (knowledge (mark_mine c st)) = length (knowledge st)
  ∧ length (knowledge (mark_safe c st)) = length (knowledge st)
  ∧ grows st (mark_mine c st) ∧ grows st (mark_safe c st).
Proof.
  split; [| split; [| split; [| split; [| split]]]].
  - split; [simpl_state; set_solver |]. split.
    + simpl_state. apply Forall_fmap, Forall_true. intros s.
      apply Sent_mark_mine_gone.
    + unfold mark_mine, set_knowledge, set_mines. simpl_state.
      f_equal; [set_solver |].
      rewrite <- list_fmap_compose. apply list_fmap_ext. intros i s Hi.
      unfold compose. unfold Sent.mark_mine at 1.
      by rewrite decide_False by apply Sent_mark_mine_gone.
  - split; [simpl_state; set_solver |]. split.
    + simpl_state. apply Forall_fmap, Forall_true. intros s.
      apply Sent_mark_safe_gone.
    + unfold mark_safe, set_knowledge, set_safes. simpl_state.
      f_equal; [set_solver |].
      rewrite <- list_fmap_compose. apply list_fmap_ext. intros i s Hi.
      unfold compose. unfold Sent.mark_safe at 1.
      by rewrite decide_False by apply Sent_mark_safe_gone.
  - simpl_state. by rewrite length_fmap.
  - simpl_state. by rewrite length_fmap.
  - apply grows_mark_mine.
  - apply grows_mark_safe.
Qed.

(** X5.  Marking one cell as a mine and a different cell as safe gives
    the same state in either order. *)
Theorem mark_mine_mark_safe_commute (c d : Cell) (st : AI) :
  c ≠ d → mark_safe c (mark_mine d st) = mark_mine d (mark_safe c st).
Proof.
  intros Hne. unfold mark_safe, mark_mine, set_knowledge, set_safes,
    set_mines. simpl_state. f_equal.
  rewrite <- !list_fmap_compose. apply list_fmap_ext. intros i s Hi.
  unfold compose. rewrite !Sent_mark_safe_eq. unfold Sent.mark_mine.
  simpl_state.
  destruct (decide (d ∈ cells s)) as [Hd | Hd]; simpl_state.
  - rewrite decide_True by set_solver. f_equal. set_solver.
  - rewrite decide_False by set_solver. done.
Qed.

(** [mark_mine_mark_safe_commute] on a state with one sentence. *)
Lemma mark_mine_mark_safe_commute_witness :
  (0, 0) ≠ (0, 1)
  ∧ mark_safe (0, 0)
      (mark_mine (0, 1)
         (set_knowledge [{| cells := {[(0, 0); (0, 1); (1, 1)]}; count := 2 |}]
            (init 2 2)))
    = mark_mine (0, 1)
        (mark_safe (0, 0)
           (set_knowledge
              [{| cells := {[(0, 0); (0, 1); (1, 1)]}; count := 2 |}]
              (init 2 2))).
Proof.
  assert ((0, 0) ≠ ((0, 1) : Cell)) as Hne by done.
  split; [exact Hne |].
  exact (mark_mine_mark_safe_commute _ _ _ Hne).
Defined.

(** X6.  The scan of one sentence in step 4 does not depend on the order
    in which Python iterates the two sets: marking the cells of
    [known_safes()] and then those of [known_mines()] in any orders gives
    the state of [extract_sentence]. *)
Theorem extract_sentence_any_order (sen : Sentence) (st : AI)
    (ls lm : list Cell) :
  ls ≡ₚ elements (Sent.known_safes sen) →
  lm ≡ₚ elements (Sent.known_mines sen) →
  mark_mines lm (mark_safes ls st) = extract_sentence sen st.
Proof.
  intros Hs Hm. unfold extract_sentence.
  rewrite (mark_safes_perm _ _ st Hs). by apply mark_mines_perm.
Qed.

(** [extract_sentence_any_order] for a sentence with count 0 and two
    cells, marked in the two possible orders. *)
Lemma extract_sentence_any_order_witness :
  [(0, 0); (0, 1)]
    ≡ₚ elements (Sent.known_safes
                   {| cells := {[(0, 0); (0, 1)]}; count := 0 |})
  ∧ [] ≡ₚ elements (Sent.known_mines
                      {| cells := {[(0, 0); (0, 1)]}; count := 0 |})
  ∧ mark_mines [] (mark_safes [(0, 1); (0, 0)] (init 2 2))
    = mark_mines [] (mark_safes [(0, 0); (0, 1)] (init 2 2)).
Proof.
  assert (∀ l, l ≡ₚ [(0, 0); ((0, 1) : Cell)] →
               l ≡ₚ elements (Sent.known_safes
                                {| cells := {[(0, 0); (0, 1)]}; count := 0 |}))
    as Hs.
  { intros l ->. apply NoDup_Permutation.
    - repeat constructor; set_solver.
    - apply NoDup_elements.
    - intros c. rewrite elem_of_elements. unfold Sent.known_safes.
      rewrite decide_True by done. cbn [cells]. set_solver. }
  assert ([] ≡ₚ elements (Sent.known_mines
                             {| cells := {[(0, 0); (0, 1)]}; count := 0 |}))
    as Hm.
  { unfold Sent.known_mines. rewrite decide_False.
    - by rewrite elements_empty.
    - cbn [cells count]. rewrite size_union by set_solver.
      rewrite !size_singleton. lia. }
  split; [by apply Hs |]. split; [exact Hm |].
  rewrite (extract_sentence_any_order _ (init 2 2) _ _
             (Hs [(0, 1); (0, 0)] (perm_swap _ _ _)) Hm).
  symmetry. exact (extract_sentence_any_order _ _ _ _ (Hs _ (reflexivity _)) Hm).
Defined.

(** ** What the two inference passes keep *)

(** A relation between states that is reflexive and transitive and holds
    across each elementary update holds across the passes of
    [add_knowledge], which are made of these updates. *)
Section Passes.

Variable R : AI → AI → Prop.
Hypothesis R_refl : ∀ st, R st st.
Hypothesis R_trans : ∀ st1 st2 st3, R st1 st2 → R st2 st3 → R st1 st3.
Hypothesis R_mark_safe : ∀ c st, R st (mark_safe c st).
Hypothesis R_mark_mine : ∀ c st, R st (mark_mine c st).
Hypothesis R_append :
  ∀ s st, R st (set_knowledge (knowledge st ++ [s]) st).

Lemma pass_mark_safes (l : list Cell) (st : AI) : R st (mark_safes l st).
Proof.
  revert st. induction l as [| c l IH]; intros st; cbn [mark_safes foldl].
  - apply R_refl.
  - eapply R_trans; [apply (R_mark_safe c) | apply IH].
Qed.

Lemma pass_mark_mines (l : list Cell) (st : AI) : R st (mark_mines l st).
Proof.
  revert st. induction l as [| c l IH]; intros st; cbn [mark_mines foldl].
  - apply R_refl.
  - eapply R_trans; [apply (R_mark_mine c) | apply IH].
Qed.

Lemma pass_extract_loop (fuel i : nat) (st : AI) :
  R st (extract_loop fuel i st).
Proof.
  revert i st. induction fuel as [| fuel IH]; intros i st;
    cbn [extract_loop]; [apply R_refl |].
  destruct (knowledge st !! i) as [sen |]; [| apply R_refl].
  eapply R_trans; [| apply IH]. unfold extract_sentence.
  eapply R_trans; [apply pass_mark_safes | apply pass_mark_mines].
Qed.

Lemma pass_derive_pair (sen1 sen2 : Sentence) (st : AI) :
  R st (derive_pair sen1 sen2 st).
Proof.
  unfold derive_pair.
  destruct (select_pair sen1 sen2) as [[[small big] d] |]; [| apply R_refl].
  case_decide; [| apply R_refl]. case_decide; [| apply R_append].
  destruct (set_pop (big ∖ small)) as [c |]; cbn [from_option];
    repeat case_decide; try apply R_refl; try apply R_mark_safe;
    try apply R_mark_mine.
  eapply R_trans; [apply R_mark_safe | apply R_mark_mine].
Qed.

Lemma pass_derive_pairs (ps : list (Sentence * Sentence)) (st : AI) :
  R st (derive_pairs ps st).
Proof.
  unfold derive_pairs. revert st.
  induction ps as [| p ps IH]; intros st; cbn [foldl]; [apply R_refl |].
  eapply R_trans; [apply pass_derive_pair | apply IH].
Qed.

Lemma pass_inference (st : AI) : R st (derive_pass (extract_pass st)).
Proof.
  rewrite derive_pass_visited.
  eapply R_trans; [apply pass_extract_loop | apply pass_derive_pairs].
Qed.

End Passes.

Section Extends.

Lemma extends_lookup (k k' : list Sentence) :
  extends k k' ↔
  ∀ i s, k !! i = Some s →
         ∃ s', k' !! i = Some s' ∧ cells s' ⊆ cells s ∧ count s' ≤ count s.
Proof.
  split.
  - intros (k1 & k2 & -> & HF) i s Hi.
    destruct (Forall2_lookup_l _ _ _ _ _ HF Hi) as (s' & Hi' & HR).
    exists s'. split; [| done]. by apply lookup_app_l_Some.
  - intros Hl.
    assert (length k ≤ length k')%nat as Hlen.
    { destruct (decide (length k = 0%nat)) as [-> | Hne]; [lia |].
      destruct (lookup_lt_is_Some_2 k (length k - 1)) as [s Hs]; [lia |].
      destruct (Hl _ _ Hs) as (s' & Hs' & _).
      apply lookup_lt_Some in Hs'. lia. }
    exists (take (length k) k'), (drop (length k) k').
    split; [by rewrite take_drop |].
    apply Forall2_same_length_lookup_2.
    + rewrite length_take. lia.
    + intros i s s' Hi Hi'. destruct (Hl _ _ Hi) as (s'' & Hs'' & HR).
      rewrite lookup_take_lt in Hi' by (by eapply lookup_lt_Some).
      by simplify_eq.
Qed.

Lemma extends_refl (k : list Sentence) : extends k k.
Proof. apply extends_lookup. intros i s Hi. exists s. done. Qed.

Lemma extends_trans (k1 k2 k3 : list Sentence) :
  extends k1 k2 → extends k2 k3 → extends k1 k3.
Proof.
  rewrite !extends_lookup. intros H12 H23 i s Hi.
  destruct (H12 _ _ Hi) as (s2 & Hi2 & Hc2 & Hn2).
  destruct (H23 _ _ Hi2) as (s3 & Hi3 & Hc3 & Hn3).
  exists s3. split; [done |]. split; [set_solver | lia].
Qed.

Lemma extends_fmap (f : Sentence → Sentence) (k : list Sentence) :
  (∀ s, cells (f s) ⊆ cells s ∧ count (f s) ≤ count s) →
  extends k (f <$> k).
Proof.
  intros Hf. apply extends_lookup. intros i s Hi. exists (f s).
  split; [| apply Hf]. by rewrite list_lookup_fmap, Hi.
Qed.

Lemma extends_app (k l : list Sentence) : extends k (k ++ l).
Proof.
  apply extends_lookup. intros i s Hi. exists s.
  split; [by apply lookup_app_l_Some | done].
Qed.

End Extends.

(** X7.  [add_knowledge] never shrinks what the engine knows: the board
    size is unchanged, [moves_made] gains exactly the probed cell, and
    [mines] and [safes] keep all their cells, [safes] gaining the probed
    one. *)
Theorem add_knowledge_monotone (cell : Cell) (cnt : Z) (st : AI) :
  height (add_knowledge cell cnt st) = height st
  ∧ width (add_knowledge cell cnt st) = width st
  ∧ moves_made (add_knowledge cell cnt st) = {[cell]} ∪ moves_made st
  ∧ mines st ⊆ mines (add_knowledge cell cnt st)
  ∧ {[cell]} ∪ safes st ⊆ safes (add_knowledge cell cnt st).
Proof.
  destruct (grows_add_knowledge cell cnt st) as (-> & -> & -> & Hm & Hs).
  simpl_state. done.
Qed.

(** X8.  The knowledge base is append-only across [add_knowledge]: every
    sentence that was in it is still there, at the same index, with the
    same or fewer cells and the same or a smaller count; new sentences
    come after the old ones. *)
Theorem add_knowledge_extends (cell : Cell) (cnt : Z) (st : AI) :
  extends (knowledge st) (knowledge (add_knowledge cell cnt st)).
Proof.
  unfold add_knowledge. cbn zeta.
  apply (extends_trans _ (knowledge (ingest_sentence cell cnt st))).
  - unfold ingest_sentence, add_sentence. cbn zeta.
    case_decide; simpl_state; [apply extends_refl | apply extends_app].
  - apply (pass_inference
             (fun st1 st2 => extends (knowledge st1) (knowledge st2))).
    + intros st0. apply extends_refl.
    + intros st1 st2 st3. apply extends_trans.
    + intros c st0. simpl_state. apply extends_fmap. intros s.
      rewrite Sent_mark_safe_eq. simpl_state. split; [set_solver | lia].
    + intros c st0. simpl_state. apply extends_fmap. intros s.
      unfold Sent.mark_mine. case_decide; simpl_state;
        split; try set_solver; lia.
    + intros s st0. simpl_state. apply extends_app.
Qed.

(** ** The subtraction rule of step 5 *)

Section Subtraction.

Lemma select_pair_subset (a b : Sentence) :
  cells a ⊆ cells b → cells a ≠ ∅ → cells a ≠ cells b →
  select_pair a b = Some (cells a, cells b, count b - count a).
Proof.
  intros Hsub Hne Hneq.
  assert (size (cells a) ≠ 0%nat) as Ha.
  { intros Hz. apply Hne. by apply leibniz_equiv, size_empty_inv. }
  assert (size (cells a) < size (cells b))%nat as Hlt.
  { apply subset_size. set_solver. }
  unfold select_pair. cbn zeta.
  rewrite bool_decide_eq_false_2 by lia.
  by rewrite bool_decide_eq_true_2 by lia.
Qed.

Lemma set_pop_singleton (c : Cell) : set_pop {[c]} = Some c.
Proof. unfold set_pop. by rewrite elements_singleton. Qed.

End Subtraction.

(** X9.  The body of the inner loop of step 5 treats its pair as
    unordered: [(sen1, sen2)] and [(sen2, sen1)] have the same effect. *)
Theorem derive_pair_symmetric (a b : Sentence) (st : AI) :
  derive_pair a b st = derive_pair b a st.
Proof.
  assert (select_pair a b = select_pair b a) as Hsym.
  { unfold select_pair. cbn zeta.
    repeat case_bool_decide; try done; try lia.
    all: exfalso; intuition lia. }
  unfold derive_pair. by rewrite Hsym.
Qed.

(** X10.  The body of the inner loop leaves the state alone unless the
    cells of one sentence of the pair, not empty, are strictly contained
    in the cells of the other: pairs with an empty sentence, with cell
    sets of the same size, or with neither contained in the other do
    nothing. *)
Theorem derive_pair_inert (a b : Sentence) (st : AI) :
  ¬ (cells a ≠ ∅ ∧ cells a ⊂ cells b) →
  ¬ (cells b ≠ ∅ ∧ cells b ⊂ cells a) →
  derive_pair a b st = st.
Proof.
  intros Hab Hba. unfold derive_pair.
  destruct (select_pair a b) as [[[small big] d] |] eqn:Hsel; [| done].
  apply select_pair_Some in Hsel as (s & l & Hsl & -> & -> & -> & Hlt & Hne).
  case_decide as Hsub; [| done]. exfalso.
  assert (cells s ≠ ∅ ∧ cells s ⊂ cells l) as Hstrict.
  { split.
    - intros He. rewrite He, size_empty in Hne. done.
    - split; [done |]. intros Hrev.
      assert (size (cells l) ≤ size (cells s))%nat
        by (by apply subseteq_size).
      lia. }
  destruct Hsl as [[-> ->] | [-> ->]]; tauto.
Qed.

(** [derive_pair_inert] for two sentences with two cells each. *)
Lemma derive_pair_inert_witness :
  ¬ (cells {| cells := {[(0, 0); (0, 1)]}; count := 1 |} ≠ ∅
     ∧ cells {| cells := {[(0, 0); (0, 1)]}; count := 1 |}
       ⊂ cells {| cells := {[(0, 1); (0, 2)]}; count := 1 |})
  ∧ derive_pair {| cells := {[(0, 0); (0, 1)]}; count := 1 |}
                {| cells := {[(0, 1); (0, 2)]}; count := 1 |} (init 1 3)
    = init 1 3.
Proof.
  assert (¬ (cells {| cells := {[(0, 0); (0, 1)]}; count := 1 |} ≠ ∅
             ∧ cells {| cells := {[(0, 0); (0, 1)]}; count := 1 |}
               ⊂ cells {| cells := {[(0, 1); (0, 2)]}; count := 1 |}))
    as Hab.
  { cbn [cells]. intros [_ [Hs _]].
    assert ((0, 0) ∉ ({[(0, 1); (0, 2)]} : gset Cell)) as Hout by by_compute.
    apply Hout, Hs. set_solver. }
  assert (¬ (cells {| cells := {[(0, 1); (0, 2)]}; count := 1 |} ≠ ∅
             ∧ cells {| cells := {[(0, 1); (0, 2)]}; count := 1 |}
               ⊂ cells {| cells := {[(0, 0); (0, 1)]}; count := 1 |}))
    as Hba.
  { cbn [cells]. intros [_ [Hs _]].
    assert ((0, 2) ∉ ({[(0, 0); (0, 1)]} : gset Cell)) as Hout by by_compute.
    apply Hout, Hs. set_solver. }
  split; [exact Hab |].
  exact (derive_pair_inert _ _ (init 1 3) Hab Hba).
Defined.

(** X11.  The subtraction rule.  Let the cells of [a], not empty, be
    contained in those of [b].  If [b] has exactly one more cell [c],
    the pair marks [c] safe when the counts are equal, marks it as a
    mine when the count of [b] is one more, and does nothing for any
    other difference of the counts.  If [b] has two or more cells that
    [a] has not, the pair appends the sentence with these cells and the
    difference of the counts, whatever the difference is. *)
Theorem derive_pair_subtracts (a b : Sentence) (st : AI) :
  cells a ⊆ cells b → cells a ≠ ∅ →
  (∀ c, cells b ∖ cells a = {[c]} →
        derive_pair a b st =
        if decide (count b - count a = 0) then mark_safe c st
        else if decide (count b - count a = 1) then mark_mine c st
        else st)
  ∧ ((2 ≤ size (cells b ∖ cells a))%nat →
     derive_pair a b st =
     set_knowledge
       (knowledge st
        ++ [{| cells := cells b ∖ cells a; count := count b - count a |}])
       st).
Proof.
  intros Hsub Hne. split.
  - intros c Hc.
    assert (cells a ≠ cells b) as Hneq by set_solver.
    unfold derive_pair. rewrite (select_pair_subset a b Hsub Hne Hneq).
    rewrite decide_True by done. cbn zeta. rewrite Hc.
    rewrite decide_True by apply size_singleton.
    rewrite set_pop_singleton. cbn [from_option].
    destruct (decide (count b - count a = 0)) as [H0 | H0].
    + by rewrite decide_False by lia.
    + done.
  - intros Hsz.
    assert (cells a ≠ cells b) as Hneq.
    { intros Heq. rewrite Heq in Hsz.
      replace (cells b ∖ cells b) with (∅ : gset Cell) in Hsz by set_solver.
      rewrite size_empty in Hsz. lia. }
    unfold derive_pair. rewrite (select_pair_subset a b Hsub Hne Hneq).
    rewrite decide_True by done. cbn zeta.
    by rewrite decide_False by lia.
Qed.

(** [derive_pair_subtracts] for [{a, b} = 1] inside [{a, b, c} = 2]. *)
Lemma derive_pair_subtracts_witness :
  cells {| cells := {[(0, 0); (0, 1)]}; count := 1 |}
  ⊆ cells {| cells := {[(0, 0); (0, 1); (0, 2)]}; count := 2 |}
  ∧ cells {| cells := {[(0, 0); (0, 1)]}; count := 1 |} ≠ ∅
  ∧ ∀ c, cells {| cells := {[(0, 0); (0, 1); (0, 2)]}; count := 2 |}
         ∖ cells {| cells := {[(0, 0); (0, 1)]}; count := 1 |} = {[c]} →
         derive_pair {| cells := {[(0, 0); (0, 1)]}; count := 1 |}
           {| cells := {[(0, 0); (0, 1); (0, 2)]}; count := 2 |} (init 1 3)
         = if decide (count {| cells := {[(0, 0); (0, 1); (0, 2)]};
                               count := 2 |}
                      - count {| cells := {[(0, 0); (0, 1)]}; count := 1 |}
                      = 0)
           then mark_safe c (init 1 3)
           else if decide (count {| cells := {[(0, 0); (0, 1); (0, 2)]};
                                    count := 2 |}
                           - count {| cells := {[(0, 0); (0, 1)]};
                                      count := 1 |}
                           = 1)
                then mark_mine c (init 1 3)
                else init 1 3.
Proof.
  assert (cells {| cells := {[(0, 0); (0, 1)]}; count := 1 |}
          ⊆ cells {| cells := {[(0, 0); (0, 1); (0, 2)]}; count := 2 |})
    as Hsub by (cbn [cells]; set_solver).
  assert (cells {| cells := {[(0, 0); (0, 1)]}; count := 1 |} ≠ ∅)
    as Hne by (cbn [cells]; set_solver).
  split; [exact Hsub |]. split; [exact Hne |].
  exact (proj1 (derive_pair_subtracts _ _ (init 1 3) Hsub Hne)).
Defined.

(** ** Which pairs step 5 reaches *)

Section SkipPairs.

Lemma list_remove_middle (x : Sentence) (kept rest : list Sentence) :
  x ∉ kept → list_remove x (kept ++ x :: rest) = kept ++ rest.
Proof.
  induction kept as [| y kept IH]; intros Hx; cbn [list_remove app].
  - by rewrite decide_True.
  - rewrite decide_False by set_solver. f_equal. apply IH. set_solver.
Qed.

Lemma outer_pairs_off_end (fuel i : nat) (L : list Sentence) :
  (length L ≤ i)%nat → outer_pairs fuel i L = [].
Proof.
  intros Hi. destruct fuel as [| fuel]; cbn [outer_pairs]; [done |].
  by rewrite lookup_ge_None_2.
Qed.

Lemma NoDup_drop_middle (x : Sentence) (kept rest : list Sentence) :
  NoDup (kept ++ x :: rest) → (x ∉ kept) ∧ NoDup (kept ++ rest).
Proof.
  rewrite !NoDup_app, NoDup_cons. intros (Hk & Hd & Hx & Hr).
  split; [| split; [done | split; [| done]]].
  - intros Hin. apply (Hd x Hin). by left.
  - intros z Hz Hz'. apply (Hd z Hz). by right.
Qed.

Lemma outer_pairs_skip (fuel : nat) (kept rest : list Sentence) :
  NoDup (kept ++ rest) → (length rest ≤ fuel)%nat →
  outer_pairs fuel (length kept) (kept ++ rest) = skip_pairs kept rest.
Proof.
  revert kept rest. induction fuel as [| fuel IH]; intros kept rest Hnd Hlen.
  - destruct rest; [done | cbn [length] in Hlen; lia].
  - destruct rest as [| x rest1].
    + cbn [outer_pairs skip_pairs]. rewrite lookup_ge_None_2; [done |].
      rewrite length_app. cbn [length]. lia.
    + cbn [outer_pairs]. rewrite list_lookup_middle by done.
      destruct (NoDup_drop_middle _ _ _ Hnd) as [Hx Hnd'].
      rewrite list_remove_middle by done.
      destruct rest1 as [| y rest2]; cbn [skip_pairs].
      * rewrite outer_pairs_off_end by (rewrite length_app; cbn; lia).
        by rewrite !app_nil_r.
      * f_equal.
        replace (kept ++ y :: rest2) with ((kept ++ [y]) ++ rest2)
          by (by rewrite <- app_assoc).
        replace (S (length kept)) with (length (kept ++ [y]))
          by (rewrite length_app; cbn [length]; lia).
        apply IH.
        -- by rewrite <- app_assoc.
        -- cbn [length] in Hlen. lia.
Qed.

Lemma skip_pairs_first (n : nat) (kept rest : list Sentence)
    (a b : Sentence) :
  (length rest ≤ n)%nat → (a, b) ∈ skip_pairs kept rest →
  ∃ k, rest !! (2 * k)%nat = Some a.
Proof.
  revert kept rest. induction n as [| n IH]; intros kept rest Hlen Hin.
  - destruct rest; [by apply elem_of_nil in Hin | cbn in Hlen; lia].
  - destruct rest as [| x [| y rest2]]; cbn [skip_pairs] in Hin.
    + by apply elem_of_nil in Hin.
    + apply list_elem_of_fmap in Hin as (z & [= -> ->] & _). by exists 0%nat.
    + apply elem_of_app in Hin as [Hin | Hin].
      * apply list_elem_of_fmap in Hin as (z & [= -> ->] & _).
        by exists 0%nat.
      * apply IH in Hin as [k Hk]; [| cbn [length] in Hlen; lia].
        exists (S k). by replace (2 * S k)%nat with (S (S (2 * k))) by lia.
Qed.

End SkipPairs.

(** X12.  On a snapshot of distinct sentences the two loops of step 5
    reach exactly the pairs of [skip_pairs]: [sen1] runs over the
    sentences at the even indices only; the sentence at index [2k] is
    paired with the sentences at the odd indices before it and with all
    the sentences after it. *)
Theorem visited_pairs_skip (L : list Sentence) :
  NoDup L → visited_pairs L = skip_pairs [] L.
Proof.
  intros Hnd. unfold visited_pairs.
  apply (outer_pairs_skip (length L) [] L); [done | lia].
Qed.

(** [visited_pairs_skip] on three distinct sentences. *)
Lemma visited_pairs_skip_witness :
  NoDup [{| cells := ∅; count := 0 |}; {| cells := ∅; count := 1 |};
         {| cells := ∅; count := 2 |}]
  ∧ visited_pairs [{| cells := ∅; count := 0 |}; {| cells := ∅; count := 1 |};
                   {| cells := ∅; count := 2 |}]
    = skip_pairs [] [{| cells := ∅; count := 0 |};
                     {| cells := ∅; count := 1 |};
                     {| cells := ∅; count := 2 |}].
Proof.
  assert (NoDup [{| cells := ∅; count := 0 |}; {| cells := ∅; count := 1 |};
                 {| cells := ∅; count := 2 |}]) as Hnd by by_compute.
  split; [exact Hnd |].
  exact (visited_pairs_skip _ Hnd).
Defined.

(** X13.  In a snapshot of distinct sentences, two sentences that both
    stand at odd indices are never compared by step 5, in either order,
    whatever their cells are. *)
Theorem odd_pair_never_compared (L : list Sentence) (i j : nat)
    (a b : Sentence) :
  NoDup L → L !! i = Some a → L !! j = Some b → Nat.Odd i → Nat.Odd j →
  ((a, b) ∉ visited_pairs L) ∧ ((b, a) ∉ visited_pairs L).
Proof.
  intros Hnd Hi Hj Hoi Hoj.
  assert (∀ m c d, L !! m = Some c → Nat.Odd m → (c, d) ∉ visited_pairs L)
    as Hodd.
  { intros m c d Hm [q Hq] Hin. unfold visited_pairs in Hin.
    change (outer_pairs (length L) 0 L)
      with (outer_pairs (length L) (length (@nil Sentence)) ([] ++ L)) in Hin.
    rewrite outer_pairs_skip in Hin by (done || lia).
    apply (skip_pairs_first (length L)) in Hin as [k Hk]; [| lia].
    pose proof (NoDup_lookup _ _ _ _ Hnd Hm Hk). lia. }
  split; eauto.
Qed.

(** [odd_pair_never_compared] for the sentences at indices 1 and 3 of a
    list of four. *)
Lemma odd_pair_never_compared_witness :
  NoDup [{| cells := ∅; count := 0 |}; {| cells := {[(0, 0)]}; count := 0 |};
         {| cells := ∅; count := 2 |};
         {| cells := {[(0, 0); (0, 1)]}; count := 1 |}]
  ∧ ({| cells := {[(0, 0)]}; count := 0 |},
     {| cells := {[(0, 0); (0, 1)]}; count := 1 |})
    ∉ visited_pairs
        [{| cells := ∅; count := 0 |}; {| cells := {[(0, 0)]}; count := 0 |};
         {| cells := ∅; count := 2 |};
         {| cells := {[(0, 0); (0, 1)]}; count := 1 |}].
Proof.
  assert (NoDup [{| cells := ∅; count := 0 |};
                 {| cells := {[(0, 0)]}; count := 0 |};
                 {| cells := ∅; count := 2 |};
                 {| cells := {[(0, 0); (0, 1)]}; count := 1 |}])
    as Hnd by by_compute.
  split; [exact Hnd |].
  refine (proj1 (odd_pair_never_compared _ 1 3 _ _ Hnd _ _ _ _)).
  - reflexivity.
  - reflexivity.
  - by exists 0%nat.
  - by exists 1%nat.
Defined.

(** ** The engine on a real board *)

(** X14.  Played on a board with hazards [H] by calls that obey the
    inbound contract, the engine only ever records the truth: every cell
    of [mines] is a hazard, no cell of [safes] is one, and every sentence
    of the knowledge base has as count the number of hazards among its
    cells. *)
Theorem engine_sound_on_board (H : gset Cell) (h w : Z) (ops : list op) :
  obeys H (init h w) ops →
  mines (run ops (init h w)) ⊆ H
  ∧ safes (run ops (init h w)) ## H
  ∧ Forall (holds H) (knowledge (run ops (init h w))).
Proof.
  intros Hops.
  pose proof (sound_run H ops (init h w) Hops (sound_init H h w)) as Hsound.
  destruct Hsound as (Hmines & Hsafes & Hknow).
  split; [exact Hmines |]. split; [exact Hsafes | exact Hknow].
Qed.

(** [engine_sound_on_board] on the 3 x 3 board with hazards at [(0, 0)]
    and [(0, 1)]. *)
Lemma engine_sound_on_board_witness :
  obeys {[(0, 0); (0, 1)]} (init 3 3)
    [Ingest (2, 2) 0; Ingest (1, 0) 2; Ingest (1, 2) 1; Ingest (1, 1) 2;
     Ingest (2, 1) 0]
  ∧ mines (run [Ingest (2, 2) 0; Ingest (1, 0) 2; Ingest (1, 2) 1;
                Ingest (1, 1) 2; Ingest (2, 1) 0] (init 3 3))
    ⊆ {[(0, 0); (0, 1)]}.
Proof.
  assert (obeys {[(0, 0); (0, 1)]} (init 3 3)
            [Ingest (2, 2) 0; Ingest (1, 0) 2; Ingest (1, 2) 1;
             Ingest (1, 1) 2; Ingest (2, 1) 0]) as Hops by by_compute.
  split; [exact Hops |].
  exact (proj1 (engine_sound_on_board _ _ _ _ Hops)).
Defined.

(** X15.  Under the same conditions the cell that [make_safe_move]
    returns is not a hazard. *)
Theorem safe_move_is_safe (H : gset Cell) (h w : Z) (ops : list op)
    (order : list Cell) (c : Cell) :
  obeys H (init h w) ops →
  (∀ x, x ∈ order → x ∈ safes (run ops (init h w))) →
  (make_safe_move order (run ops (init h w))).1 = Some c →
  c ∉ H.
Proof.
  intros Hops Horder Hc.
  destruct (sound_run H ops (init h w) Hops (sound_init H h w))
    as (_ & Hs & _).
  apply safe_move_loop_Some in Hc as (Hin & _ & _).
  apply Horder in Hin. set_solver.
Qed.

(** [safe_move_is_safe] after a probe of [(2, 2)] on the 3 x 3 board with
    its hazard at [(0, 0)]. *)
Lemma safe_move_is_safe_witness :
  obeys {[(0, 0)]} (init 3 3) [Ingest (2, 2) 0]
  ∧ (∀ x, x ∈ [(2, 2); (1, 1); (1, 2); (2, 1)] →
          x ∈ safes (run [Ingest (2, 2) 0] (init 3 3)))
  ∧ (make_safe_move [(2, 2); (1, 1); (1, 2); (2, 1)]
       (run [Ingest (2, 2) 0] (init 3 3))).1 = Some (1, 1)
  ∧ (1, 1) ∉ ({[(0, 0)]} : gset Cell).
Proof.
  assert (obeys {[(0, 0)]} (init 3 3) [Ingest (2, 2) 0]) as Hops
    by by_compute.
  assert (∀ x, x ∈ [(2, 2); (1, 1); (1, 2); (2, 1)] →
               x ∈ safes (run [Ingest (2, 2) 0] (init 3 3))) as Horder.
  { intros x Hx.
    assert (Forall (fun y => y ∈ safes (run [Ingest (2, 2) 0] (init 3 3)))
              [(2, 2); (1, 1); (1, 2); (2, 1)]) as Hall by by_compute.
    by apply (proj1 (Forall_forall _ _) Hall). }
  assert ((make_safe_move [(2, 2); (1, 1); (1, 2); (2, 1)]
             (run [Ingest (2, 2) 0] (init 3 3))).1 = Some (1, 1)) as Hc
    by by_compute.
  split; [exact Hops |]. split; [exact Horder |]. split; [exact Hc |].
  exact (safe_move_is_safe _ _ _ _ _ _ Hops Horder Hc).
Defined.

Section ZeroProbe.

Variable H : gset Cell.

Lemma extract_pass_split_at (st : AI) (j : nat) (sen : Sentence) :
  knowledge (extract_loop j 0 st) !! j = Some sen →
  extract_pass st
  = extract_loop (length (knowledge st) - S j) (S j)
      (extract_sentence sen (extract_loop j 0 st)).
Proof.
  intros Hj.
  assert (j < length (knowledge st))%nat as Hlt.
  { apply lookup_lt_Some in Hj. by rewrite length_extract_loop in Hj. }
  unfold extract_pass.
  replace (length (knowledge st))
    with (j + S (length (knowledge st) - S j))%nat at 1 by lia.
  rewrite extract_loop_split. cbn [extract_loop Nat.add]. by rewrite Hj.
Qed.

(** A sentence of count 0 that covers the set [A], up to cells already
    safe, still does after another sentence has been scanned. *)
Lemma zero_sentence_kept (j : nat) (A : gset Cell) (sen : Sentence)
    (st : AI) :
  holds H sen → sound H st →
  (∃ sj, knowledge st !! j = Some sj ∧ count sj = 0
         ∧ A ⊆ cells sj ∪ safes st) →
  ∃ sj, knowledge (extract_sentence sen st) !! j = Some sj ∧ count sj = 0
        ∧ A ⊆ cells sj ∪ safes (extract_sentence sen st).
Proof.
  intros Hsen (_ & _ & Hk) (sj & Hj & H0 & HA).
  pose proof (Forall_lookup_1 _ _ _ _ Hk Hj) as Hsj.
  assert (cells sj ∩ H = ∅) as Hclean.
  { unfold holds in Hsj. apply leibniz_equiv, size_empty_inv. lia. }
  assert (Sent.known_mines sen ⊆ H) as Hkm
    by (intros x Hx; exact (known_mines_sound H sen x Hsen Hx)).
  unfold extract_sentence.
  destruct (frame_mark_mines (elements (Sent.known_mines sen))
              (mark_safes (elements (Sent.known_safes sen)) st))
    as (_ & _ & _ & ->).
  rewrite safes_mark_safes, knowledge_mark_mines, knowledge_mark_safes.
  rewrite !list_lookup_fmap, Hj. cbn [fmap option_fmap option_map].
  rewrite Sent_mark_mines_eq by apply NoDup_elements.
  rewrite !list_to_set_elements_L. simpl_state.
  eexists. split; [reflexivity |]. simpl_state. split.
  - assert ((cells sj ∖ Sent.known_safes sen) ∩ Sent.known_mines sen = ∅)
      as -> by set_solver.
    rewrite size_empty. lia.
  - intros x Hx. specialize (HA x Hx).
    destruct (decide (x ∈ Sent.known_safes sen)); set_solver.
Qed.

Lemma zero_sentence_loop (j : nat) (A : gset Cell) (fuel i : nat) (st : AI) :
  sound H st →
  (∃ sj, knowledge st !! j = Some sj ∧ count sj = 0
         ∧ A ⊆ cells sj ∪ safes st) →
  sound H (extract_loop fuel i st)
  ∧ ∃ sj, knowledge (extract_loop fuel i st) !! j = Some sj ∧ count sj = 0
          ∧ A ⊆ cells sj ∪ safes (extract_loop fuel i st).
Proof.
  revert i st. induction fuel as [| fuel IH]; intros i st Hst Hinv;
    cbn [extract_loop]; [done |].
  destruct (knowledge st !! i) as [sen |] eqn:Hi; [| done].
  assert (holds H sen) as Hsen.
  { destruct Hst as (_ & _ & Hk). by eapply Forall_lookup_1. }
  apply IH.
  - by apply sound_extract_sentence.
  - by apply zero_sentence_kept.
Qed.

End ZeroProbe.

(** X16.  On an engine whose records are true on the board with hazards
    [H], probing a cell that is not a hazard and has no hazard among its
    in-bounds neighbours (count 0) makes all these neighbours safe within
    the same call. *)
Theorem zero_probe_clears (H : gset Cell) (st : AI) (cell : Cell) :
  sound H st → cell ∉ H →
  true_count H (height st) (width st) cell = 0 →
  adj_set (height st) (width st) cell ⊆ safes (add_knowledge cell 0 st).
Proof.
  intros Hst Hcell Hzero.
  set (A := adj_set (height st) (width st) cell).
  pose proof (sound_record_move H cell st Hcell Hst) as H1.
  set (st1 := record_move cell st) in *.
  assert (A ∩ H = ∅) as Hclean.
  { unfold true_count in Hzero. apply leibniz_equiv, size_empty_inv.
    fold A in Hzero. lia. }
  pose proof (holds_new_sentence H cell st1 H1) as Hnew.
  change (height st1) with (height st) in Hnew.
  change (width st1) with (width st) in Hnew.
  rewrite Hzero in Hnew.
  set (s := new_sentence cell 0 st1) in *.
  assert (count s = 0) as Hs0.
  { unfold s, new_sentence. simpl_state. rewrite neighbors_to_cell_mines.
    change (height st1) with (height st). change (width st1) with (width st).
    fold A.
    assert (filter (fun n => n ∈ mines st1) A = ∅) as ->.
    { apply set_eq. intros x. rewrite elem_of_filter.
      destruct H1 as (Hm & _ & _). set_solver. }
    rewrite size_empty. lia. }
  assert (A ⊆ cells s ∪ safes st1) as HA.
  { intros x Hx. destruct (decide (x ∈ safes st1)); [set_solver |].
    apply elem_of_union_l. unfold s, new_sentence. cbn [cells].
    apply neighbors_to_cell_cells. split; [by apply elem_of_adj_set |].
    split; [| done]. destruct H1 as (Hm & _ & _). set_solver. }
  pose proof (sound_add_sentence H s st1 Hnew H1) as H3.
  set (st3 := add_sentence s st1) in *.
  assert (∃ j, knowledge st3 !! j = Some s) as [j Hj].
  { apply list_elem_of_lookup_1. unfold st3, add_sentence.
    case_decide; [done |]. simpl_state. set_solver. }
  assert (safes st3 = safes st1) as Hsafes3
    by (unfold st3, add_sentence; by case_decide).
  destruct (zero_sentence_loop H j A j 0 st3 H3) as (Hsj & sj & Hlj & Hc0 & HAj).
  { exists s. rewrite Hsafes3. done. }
  destruct (extract_sentence_scanned _ _ _ Hlj) as (Hks & _ & _).
  unfold Sent.known_safes in Hks. rewrite decide_True in Hks by done.
  pose proof (grows_extract_sentence sj (extract_loop j 0 st3))
    as (_ & _ & _ & _ & Hg1).
  change (add_knowledge cell 0 st) with (derive_pass (extract_pass st3)).
  rewrite (extract_pass_split_at st3 j sj Hlj).
  match goal with
  | |- _ ⊆ safes (derive_pass ?x) =>
      destruct (grows_outer_loop (length (knowledge x)) 0 (knowledge x) x)
        as (_ & _ & _ & _ & Hg3)
  end.
  match goal with
  | |- _ ⊆ safes (derive_pass (extract_loop ?n ?i ?x)) =>
      destruct (grows_extract_loop n i x) as (_ & _ & _ & _ & Hg2)
  end.
  unfold derive_pass. set_solver.
Qed.

(** [zero_probe_clears] for the corner [(2, 2)] of a new 3 x 3 board with
    its hazard at [(0, 0)]. *)
Lemma zero_probe_clears_witness :
  sound {[(0, 0)]} (init 3 3)
  ∧ ((2, 2) ∉ ({[(0, 0)]} : gset Cell))
  ∧ true_count {[(0, 0)]} (height (init 3 3)) (width (init 3 3)) (2, 2) = 0
  ∧ adj_set (height (init 3 3)) (width (init 3 3)) (2, 2)
    ⊆ safes (add_knowledge (2, 2) 0 (init 3 3)).
Proof.
  pose proof (sound_init {[(0, 0)]} 3 3) as Hst.
  assert ((2, 2) ∉ ({[(0, 0)]} : gset Cell)) as Hc by by_compute.
  assert (true_count {[(0, 0)]} (height (init 3 3)) (width (init 3 3)) (2, 2)
          = 0) as Hz by by_compute.
  split; [exact Hst |]. split; [exact Hc |]. split; [exact Hz |].
  exact (zero_probe_clears _ _ _ Hst Hc Hz).
Defined.

Section FullProbe.

Variable H : gset Cell.

(** A sentence all of whose cells are mines, and that covers the set [B]
    up to cells already in [mines], still is one and still does after
    another sentence has been scanned. *)
Lemma full_sentence_kept (j : nat) (B : gset Cell) (sen : Sentence)
    (st : AI) :
  holds H sen → sound H st →
  (∃ sj, knowledge st !! j = Some sj
         ∧ Z.of_nat (size (cells sj)) = count sj
         ∧ B ⊆ cells sj ∪ mines st) →
  ∃ sj, knowledge (extract_sentence sen st) !! j = Some sj
        ∧ Z.of_nat (size (cells sj)) = count sj
        ∧ B ⊆ cells sj ∪ mines (extract_sentence sen st).
Proof.
  intros Hsen (_ & _ & Hk) (sj & Hj & Hfull & HB).
  pose proof (Forall_lookup_1 _ _ _ _ Hk Hj) as Hsj.
  assert (cells sj ∩ H = cells sj) as Hall.
  { unfold holds in Hsj. apply set_subseteq_size_eq; [set_solver | lia]. }
  assert (Sent.known_safes sen ## H) as Hks
    by (intros x Hx Hx'; exact (known_safes_sound H sen x Hsen Hx Hx')).
  unfold extract_sentence.
  rewrite mines_mark_mines.
  destruct (frame_mark_safes (elements (Sent.known_safes sen)) st)
    as (_ & _ & _ & ->).
  rewrite knowledge_mark_mines, knowledge_mark_safes.
  rewrite !list_lookup_fmap, Hj. cbn [fmap option_fmap option_map].
  rewrite Sent_mark_mines_eq by apply NoDup_elements.
  rewrite !list_to_set_elements_L. simpl_state.
  eexists. split; [reflexivity |]. simpl_state.
  assert (cells sj ∖ Sent.known_safes sen = cells sj) as -> by set_solver.
  split.
  - rewrite size_difference_alt.
    assert (size (cells sj ∩ Sent.known_mines sen) ≤ size (cells sj))%nat
      by (apply subseteq_size; set_solver).
    lia.
  - intros x Hx. specialize (HB x Hx).
    destruct (decide (x ∈ Sent.known_mines sen)); set_solver.
Qed.

Lemma full_sentence_loop (j : nat) (B : gset Cell) (fuel i : nat) (st : AI) :
  sound H st →
  (∃ sj, knowledge st !! j = Some sj
         ∧ Z.of_nat (size (cells sj)) = count sj
         ∧ B ⊆ cells sj ∪ mines st) →
  sound H (extract_loop fuel i st)
  ∧ ∃ sj, knowledge (extract_loop fuel i st) !! j = Some sj
          ∧ Z.of_nat (size (cells sj)) = count sj
          ∧ B ⊆ cells sj ∪ mines (extract_loop fuel i st).
Proof.
  revert i st. induction fuel as [| fuel IH]; intros i st Hst Hinv;
    cbn [extract_loop]; [done |].
  destruct (knowledge st !! i) as [sen |] eqn:Hi; [| done].
  assert (holds H sen) as Hsen.
  { destruct Hst as (_ & _ & Hk). by eapply Forall_lookup_1. }
  apply IH.
  - by apply sound_extract_sentence.
  - by apply full_sentence_kept.
Qed.

End FullProbe.

(** X17.  On an engine whose records are true on the board with hazards
    [H], probing a cell that is not a hazard, with its true count, when
    every in-bounds neighbour not yet known safe is a hazard, puts all
    these neighbours into [mines] within the same call. *)
Theorem full_probe_flags (H : gset Cell) (st : AI) (cell : Cell) :
  sound H st → cell ∉ H →
  (∀ n, n ∈ adj_set (height st) (width st) cell → n ∉ safes st → n ∈ H) →
  adj_set (height st) (width st) cell ∖ safes st
  ⊆ mines (add_knowledge cell
             (true_count H (height st) (width st) cell) st).
Proof.
  intros Hst Hcell Hfull.
  set (A := adj_set (height st) (width st) cell) in *.
  set (cnt := true_count H (height st) (width st) cell).
  pose proof (sound_record_move H cell st Hcell Hst) as H1.
  set (st1 := record_move cell st) in *.
  pose proof (holds_new_sentence H cell st1 H1) as Hnew.
  change (height st1) with (height st) in Hnew.
  change (width st1) with (width st) in Hnew. fold cnt in Hnew.
  set (s := new_sentence cell cnt st1) in *.
  assert (∀ x, x ∈ cells s ↔ x ∈ A ∧ (x ∉ mines st1) ∧ (x ∉ safes st1))
    as Hcells.
  { intros x. unfold s, new_sentence. cbn [cells].
    rewrite neighbors_to_cell_cells. unfold A. by rewrite elem_of_adj_set. }
  assert (Z.of_nat (size (cells s)) = count s) as Hsfull.
  { unfold holds in Hnew. rewrite <- Hnew. do 2 f_equal.
    apply set_eq. intros x. rewrite elem_of_intersection, Hcells.
    unfold st1. simpl_state. split; [| tauto].
    intros (HxA & Hm & Hs). split; [done |]. apply Hfull; set_solver. }
  assert (A ∖ safes st ⊆ cells s ∪ mines st1) as HB.
  { intros x [HxA Hxs]%elem_of_difference.
    destruct (decide (x ∈ mines st1)); [set_solver |].
    apply elem_of_union_l, Hcells. split; [done |]. split; [done |].
    unfold st1. simpl_state.
    assert (x ≠ cell).
    { apply elem_of_adj_set in HxA. unfold adjacent in HxA. tauto. }
    set_solver. }
  pose proof (sound_add_sentence H s st1 Hnew H1) as H3.
  set (st3 := add_sentence s st1) in *.
  assert (∃ j, knowledge st3 !! j = Some s) as [j Hj].
  { apply list_elem_of_lookup_1. unfold st3, add_sentence.
    case_decide; [done |]. simpl_state. set_solver. }
  assert (mines st3 = mines st1) as Hmines3
    by (unfold st3, add_sentence; by case_decide).
  destruct (full_sentence_loop H j (A ∖ safes st) j 0 st3 H3)
    as (Hsj & sj & Hlj & Hcf & HBj).
  { exists s. rewrite Hmines3. done. }
  destruct (extract_sentence_scanned _ _ _ Hlj) as (_ & Hkm & _).
  unfold Sent.known_mines in Hkm. rewrite decide_True in Hkm by done.
  pose proof (grows_extract_sentence sj (extract_loop j 0 st3))
    as (_ & _ & _ & Hg1 & _).
  change (add_knowledge cell cnt st) with (derive_pass (extract_pass st3)).
  rewrite (extract_pass_split_at st3 j sj Hlj).
  match goal with
  | |- _ ⊆ mines (derive_pass ?x) =>
      destruct (grows_outer_loop (length (knowledge x)) 0 (knowledge x) x)
        as (_ & _ & _ & Hg3 & _)
  end.
  match goal with
  | |- _ ⊆ mines (derive_pass (extract_loop ?n ?i ?x)) =>
      destruct (grows_extract_loop n i x) as (_ & _ & _ & Hg2 & _)
  end.
  unfold derive_pass. set_solver.
Qed.

(** [full_probe_flags] for the corner [(0, 0)] of a new 2 x 2 board on
    which the three other cells are hazards. *)
Lemma full_probe_flags_witness :
  sound {[(0, 1); (1, 0); (1, 1)]} (init 2 2)
  ∧ ((0, 0) ∉ ({[(0, 1); (1, 0); (1, 1)]} : gset Cell))
  ∧ adj_set (height (init 2 2)) (width (init 2 2)) (0, 0)
    ∖ safes (init 2 2)
    ⊆ mines (add_knowledge (0, 0)
               (true_count {[(0, 1); (1, 0); (1, 1)]}
                  (height (init 2 2)) (width (init 2 2)) (0, 0))
               (init 2 2)).
Proof.
  pose proof (sound_init {[(0, 1); (1, 0); (1, 1)]} 2 2) as Hst.
  assert ((0, 0) ∉ ({[(0, 1); (1, 0); (1, 1)]} : gset Cell)) as Hc
    by by_compute.
  assert (∀ n, n ∈ adj_set (height (init 2 2)) (width (init 2 2)) (0, 0) →
               n ∉ safes (init 2 2) →
               n ∈ ({[(0, 1); (1, 0); (1, 1)]} : gset Cell)) as Hfull.
  { intros n Hn _.
    assert (adj_set (height (init 2 2)) (width (init 2 2)) (0, 0)
            ⊆ ({[(0, 1); (1, 0); (1, 1)]} : gset Cell)) as Hsub by by_compute.
    by apply Hsub. }
  split; [exact Hst |]. split; [exact Hc |].
  exact (full_probe_flags _ _ _ Hst Hc Hfull).
Defined.

(** ** The fallback move *)

Section Fallback.

Lemma elem_of_board (st : AI) (c : Cell) : c ∈ board st ↔ on_board st c.
Proof.
  unfold board, on_board. destruct c as [i j]. cbn [fst snd].
  rewrite list_elem_of_bind. split.
  - intros (row & Hin & Hrow). apply list_elem_of_bind in Hin
      as (col & Hin & Hcol).
    apply list_elem_of_singleton in Hin as [= -> ->].
    apply elem_of_seqZ in Hrow, Hcol. lia.
  - intros [Hi Hj]. exists i. split; [| apply elem_of_seqZ; lia].
    apply list_elem_of_bind. exists j.
    split; [by apply list_elem_of_singleton | apply elem_of_seqZ; lia].
Qed.

End Fallback.

(** X18.  [make_random_move] returns a cell that is on the board, not in
    [mines] and not in [moves_made], and records it in [moves_made],
    changing nothing else; it returns nothing, and changes nothing,
    exactly when every cell of the board is in [mines] or [moves_made]
    (in particular on a board without cells). *)
Theorem make_random_move_spec (r : nat) (st : AI) :
  match (make_random_move r st).1 with
  | Some c =>
      on_board st c ∧ (c ∉ mines st) ∧ (c ∉ moves_made st)
      ∧ (make_random_move r st).2
        = set_moves_made ({[c]} ∪ moves_made st) st
  | None =>
      (∀ c, on_board st c → c ∈ mines st ∪ moves_made st)
      ∧ (make_random_move r st).2 = st
  end.
Proof.
  unfold make_random_move. cbn zeta.
  destruct (decide (length (future_moves st) = 0%nat)) as [Hlen | Hlen].
  - cbn [fst snd]. split; [| done]. intros c Hc.
    apply nil_length_inv in Hlen.
    destruct (decide (c ∈ mines st)) as [| Hm]; [set_solver |].
    destruct (decide (c ∈ moves_made st)) as [| Hmm]; [set_solver |].
    assert (c ∈ future_moves st) as Hin.
    { unfold future_moves. apply list_elem_of_filter.
      split; [done | by apply elem_of_board]. }
    rewrite Hlen in Hin. by apply elem_of_nil in Hin.
  - destruct (future_moves st !! _) as [c |] eqn:Hc; cbn [fst snd].
    + apply list_elem_of_lookup_2 in Hc. unfold future_moves in Hc.
      apply list_elem_of_filter in Hc as [[Hm Hmm] Hb].
      apply elem_of_board in Hb. done.
    + apply lookup_ge_None_1 in Hc.
      pose proof (Nat.mod_upper_bound r (length (future_moves st)) Hlen).
      lia.
Qed.

(** ** The game: [class Minesweeper] *)

Section Game.

Lemma getitem_nonneg {A : Type} (l : list A) (i : Z) :
  0 ≤ i → Minesweeper.getitem l i = l !! Z.to_nat i.
Proof. intros Hi. unfold Minesweeper.getitem. by rewrite decide_True. Qed.

Lemma getitem_negative {A : Type} (l : list A) (i : Z) :
  - Z.of_nat (length l) ≤ i → i < 0 →
  Minesweeper.getitem l i = l !! Z.to_nat (Z.of_nat (length l) + i).
Proof.
  intros Hlo Hhi. unfold Minesweeper.getitem.
  rewrite decide_False by lia. by rewrite decide_True.
Qed.

Lemma getitem_out {A : Type} (l : list A) (i : Z) :
  i < - Z.of_nat (length l) ∨ Z.of_nat (length l) ≤ i →
  Minesweeper.getitem l i = None.
Proof.
  intros Hi. unfold Minesweeper.getitem.
  destruct (decide (0 ≤ i)).
  - apply lookup_ge_None_2. lia.
  - rewrite decide_False by lia. done.
Qed.

Lemma getitem_elem_of {A : Type} (l : list A) (i : Z) (x : A) :
  Minesweeper.getitem l i = Some x → x ∈ l.
Proof.
  unfold Minesweeper.getitem. repeat case_decide; try done.
  all: apply list_elem_of_lookup_2.
Qed.

Lemma setitem_in {A : Type} (l : list A) (i : Z) (x : A) :
  0 ≤ i → i < Z.of_nat (length l) →
  Minesweeper.setitem l i x = Some (<[Z.to_nat i := x]> l).
Proof. intros ??. unfold Minesweeper.setitem. by rewrite decide_True. Qed.

Lemma wf_row (g : Minesweeper.t) (i : Z) :
  Minesweeper.wf g → 0 ≤ i → i < Minesweeper.height g →
  ∃ row, Minesweeper.board g !! Z.to_nat i = Some row
         ∧ length row = Z.to_nat (Minesweeper.width g).
Proof.
  intros (Hlen & Hrows & _) Hi Hh.
  destruct (lookup_lt_is_Some_2 (Minesweeper.board g) (Z.to_nat i))
    as [row Hrow]; [lia |].
  exists row. split; [done |].
  by apply (Forall_lookup_1 _ _ _ _ Hrows Hrow).
Qed.

Lemma wf_empty (h w : Z) :
  Minesweeper.wf
    {| Minesweeper.height := h; Minesweeper.width := w;
       Minesweeper.mines := ∅;
       Minesweeper.board := Minesweeper.empty_board h w;
       Minesweeper.mines_found := ∅ |}.
Proof.
  unfold Minesweeper.wf, Minesweeper.empty_board. cbn.
  split; [by rewrite length_replicate |]. split; [| split].
  - apply Forall_replicate. by rewrite length_replicate.
  - intros c Hc. set_solver.
  - intros i j Hi Hj. unfold Minesweeper.board_get.
    rewrite getitem_nonneg by lia.
    rewrite lookup_replicate_2 by lia. cbn.
    rewrite getitem_nonneg by lia.
    rewrite lookup_replicate_2 by lia.
    by rewrite bool_decide_eq_false_2 by set_solver.
Qed.

(** Setting one cell of a well-formed board that is not yet a mine. *)
Lemma wf_place_one (g : Minesweeper.t) (i j : Z) :
  Minesweeper.wf g →
  0 ≤ i → i < Minesweeper.height g → 0 ≤ j → j < Minesweeper.width g →
  ∃ b', Minesweeper.board_set (Minesweeper.board g) i j true = Some b'
        ∧ Minesweeper.wf
            {| Minesweeper.height := Minesweeper.height g;
               Minesweeper.width := Minesweeper.width g;
               Minesweeper.mines := {[(i, j)]} ∪ Minesweeper.mines g;
               Minesweeper.board := b';
               Minesweeper.mines_found := Minesweeper.mines_found g |}.
Proof.
  intros Hwf Hi Hih Hj Hjw.
  destruct (wf_row g i Hwf Hi Hih) as (row & Hrow & Hrowlen).
  destruct Hwf as (Hlen & Hrows & Hin & Hget).
  eexists. split.
  - unfold Minesweeper.board_set. rewrite getitem_nonneg by done.
    rewrite Hrow. cbn [mbind option_bind].
    rewrite setitem_in by lia. cbn [mbind option_bind].
    rewrite setitem_in by lia. reflexivity.
  - unfold Minesweeper.wf. cbn.
    split; [by rewrite length_insert |]. split; [| split].
    + apply Forall_insert; [done |]. by rewrite length_insert.
    + intros c [->%elem_of_singleton | Hc]%elem_of_union; [cbn; lia |].
      by apply Hin.
    + intros i' j' Hi' Hj'. specialize (Hget i' j' Hi' Hj').
      unfold Minesweeper.board_get in *.
      rewrite getitem_nonneg in * by lia.
      destruct (decide (i' = i)) as [-> | Hne].
      * rewrite list_lookup_insert_eq by lia. rewrite Hrow in Hget.
        cbn [mbind option_bind] in *. rewrite getitem_nonneg in * by lia.
        destruct (decide (j' = j)) as [-> | Hnej].
        -- rewrite list_lookup_insert_eq by lia.
           by rewrite bool_decide_eq_true_2 by set_solver.
        -- rewrite list_lookup_insert_ne by lia. rewrite Hget.
           f_equal. apply bool_decide_ext. set_solver.
      * rewrite list_lookup_insert_ne by lia. rewrite Hget.
        f_equal. apply bool_decide_ext. set_solver.
Qed.

(** The loop of the constructor from a well-formed game. *)
Lemma place_spec (draws : list (Z * Z)) (n : Z) (g : Minesweeper.t) :
  Minesweeper.wf g →
  match Minesweeper.place draws n g with
  | Minesweeper.Built g' =>
      Minesweeper.wf g'
      ∧ Z.of_nat (size (Minesweeper.mines g')) = n
      ∧ Minesweeper.height g' = Minesweeper.height g
      ∧ Minesweeper.width g' = Minesweeper.width g
      ∧ Minesweeper.mines_found g' = Minesweeper.mines_found g
  | Minesweeper.ValueError =>
      Minesweeper.height g ≤ 0 ∨ Minesweeper.width g ≤ 0
  | Minesweeper.IndexError => False
  | Minesweeper.Unfinished => True
  end.
Proof.
  revert g. induction draws as [| [d1 d2] rest IH]; intros g Hwf;
    cbn [Minesweeper.place].
  - repeat case_decide; auto.
  - destruct (decide (Z.of_nat (size (Minesweeper.mines g)) = n)); [done |].
    destruct (decide (Minesweeper.height g ≤ 0)) as [| Hh]; [by left |].
    destruct (decide (Minesweeper.width g ≤ 0)) as [| Hw]; [by right |].
    cbn zeta.
    pose proof (Z.mod_pos_bound d1 (Minesweeper.height g) ltac:(lia)) as Hi.
    pose proof (Z.mod_pos_bound d2 (Minesweeper.width g) ltac:(lia)) as Hj.
    pose proof Hwf as (_ & _ & _ & Hget).
    rewrite (Hget _ _ Hi Hj).
    case_bool_decide as Hmine; [by apply IH |].
    destruct (wf_place_one g _ _ Hwf (proj1 Hi) (proj2 Hi) (proj1 Hj)
                (proj2 Hj)) as (b' & -> & Hwf').
    specialize (IH _ Hwf'). by destruct (Minesweeper.place rest n _).
Qed.

Lemma length_bind_const {A B : Type} (f : A → list B) (l : list A) (m : nat) :
  (∀ y, length (f y) = m) → length (l ≫= f) = (length l * m)%nat.
Proof.
  intros Hf. induction l as [| x l IH]; [done |].
  cbn [mbind list_bind length]. rewrite length_app, Hf.
  cbn [mbind] in IH. rewrite IH. lia.
Qed.

Lemma size_list_to_set_le (l : list Cell) :
  (size (list_to_set l : gset Cell) ≤ length l)%nat.
Proof.
  induction l as [| x l IH]; cbn [list_to_set length].
  - by rewrite size_empty.
  - rewrite size_union_alt, size_singleton.
    assert (size ((list_to_set l : gset Cell) ∖ {[x]})
            ≤ size (list_to_set l : gset Cell))%nat
      by (apply subseteq_size; set_solver).
    lia.
Qed.

(** A well-formed game has no more mines than its board has cells. *)
Lemma wf_mines_bound (g : Minesweeper.t) :
  Minesweeper.wf g →
  (size (Minesweeper.mines g)
   ≤ Z.to_nat (Minesweeper.height g) * Z.to_nat (Minesweeper.width g))%nat.
Proof.
  intros (_ & _ & Hin & _).
  set (st := init (Minesweeper.height g) (Minesweeper.width g)).
  assert (Minesweeper.mines g ⊆ list_to_set (board st)) as Hsub.
  { intros c Hc. apply elem_of_list_to_set, elem_of_board. by apply Hin. }
  apply subseteq_size in Hsub.
  pose proof (size_list_to_set_le (board st)) as Hle.
  assert (length (board st)
          = (Z.to_nat (Minesweeper.height g)
             * Z.to_nat (Minesweeper.width g))%nat) as Hlen.
  { unfold board.
    rewrite (length_bind_const _ _ (Z.to_nat (Minesweeper.width g))).
    - by rewrite length_seqZ.
    - intros row. rewrite (length_bind_const _ _ 1%nat) by done.
      rewrite length_seqZ. unfold st. cbn. lia. }
  lia.
Qed.

(** The loop of [nearby_mines] over cells of the 3 x 3 block. *)
Lemma nearby_fold (g : Minesweeper.t) (cell : Cell) (l : list Cell) (m : Z) :
  Minesweeper.wf g → (∀ n, n ∈ l → n ∈ candidates cell) →
  foldl (Minesweeper.nearby_step g cell) (Some m) l
  = Some (m + Z.of_nat
                (length
                   (filter (fun n =>
                              adjacent (Minesweeper.height g)
                                (Minesweeper.width g) cell n
                              ∧ n ∈ Minesweeper.mines g) l))).
Proof.
  intros Hwf. revert m. induction l as [| n l IH]; intros m Hl.
  - cbn. f_equal. lia.
  - cbn [foldl]. rewrite filter_cons.
    assert (n ∈ candidates cell) as Hn by (apply Hl; by left).
    apply elem_of_candidates in Hn.
    assert (∀ n', n' ∈ l → n' ∈ candidates cell) as Hl'
      by (intros n' Hn'; apply Hl; by right).
    unfold Minesweeper.nearby_step at 2. cbn [mbind option_bind].
    destruct (decide (n = cell)) as [-> | Hne].
    + rewrite IH by done. rewrite decide_False; [done |].
      unfold adjacent. tauto.
    + destruct (decide ((0 ≤ n.1 ∧ n.1 < Minesweeper.height g)
                        ∧ (0 ≤ n.2 ∧ n.2 < Minesweeper.width g)))
        as [[Hi Hj] | Hout].
      * destruct Hwf as (_ & _ & _ & Hget). rewrite (Hget _ _ Hi Hj).
        cbn [mbind option_bind]. destruct n as [i j]. cbn [fst snd] in *.
        case_bool_decide as Hm.
        -- rewrite IH by done. rewrite decide_True.
           ++ cbn [length]. f_equal. lia.
           ++ unfold adjacent. cbn [fst snd]. tauto.
        -- rewrite IH by done. rewrite decide_False; [done |]. tauto.
      * rewrite IH by done. rewrite decide_False; [done |].
        unfold adjacent. tauto.
Qed.

End Game.

(** The 2 x 2 game with its mine at [(1, 1)] is well formed. *)
Lemma wf_corner_game :
  Minesweeper.wf
    {| Minesweeper.height := 2; Minesweeper.width := 2;
       Minesweeper.mines := {[(1, 1)]};
       Minesweeper.board := [[false; false]; [false; true]];
       Minesweeper.mines_found := ∅ |}.
Proof.
  unfold Minesweeper.wf. cbn.
  split; [done |]. split; [by repeat constructor |]. split.
  - intros c ->%elem_of_singleton. cbn. lia.
  - intros i j Hi Hj.
    assert (i = 0 ∨ i = 1) as [-> | ->] by lia;
      assert (j = 0 ∨ j = 1) as [-> | ->] by lia;
      vm_compute; reflexivity.
Qed.

(** X19.  When the constructor of [Minesweeper] returns a game, whatever
    the random draws were, the game has the requested size and exactly
    the requested number of mines, all on the board; the board holds
    [True] exactly at the mines, in [height] rows of [width] cells; no
    mine is found yet; and the game counts as won if and only if no mine
    was requested. *)
Theorem game_init_built (h w n : Z) (draws : list (Z * Z))
    (g : Minesweeper.t) :
  Minesweeper.init h w n draws = Minesweeper.Built g →
  Minesweeper.wf g
  ∧ Minesweeper.height g = h ∧ Minesweeper.width g = w
  ∧ Z.of_nat (size (Minesweeper.mines g)) = n
  ∧ Minesweeper.mines_found g = ∅
  ∧ (Minesweeper.won g = true ↔ n = 0).
Proof.
  intros Hinit. unfold Minesweeper.init in Hinit.
  pose proof (place_spec draws n _ (wf_empty h w)) as Hspec.
  rewrite Hinit in Hspec. cbn in Hspec.
  destruct Hspec as (Hwf & Hn & Hh & Hw & Hf).
  repeat (split; [done |]).
  unfold Minesweeper.won. rewrite Hf, bool_decide_eq_true. split.
  - intros He. rewrite <- He, size_empty in Hn. lia.
  - intros ->. symmetry. apply leibniz_equiv, size_empty_inv. lia.
Qed.

(** [game_init_built] for a 2 x 2 game with one mine; the first draw
    lands on [(1, 1)]. *)
Lemma game_init_built_witness :
  Minesweeper.init 2 2 1 [(5, 3)]
  = Minesweeper.Built
      {| Minesweeper.height := 2; Minesweeper.width := 2;
         Minesweeper.mines := {[(1, 1)]};
         Minesweeper.board := [[false; false]; [false; true]];
         Minesweeper.mines_found := ∅ |}
  ∧ Minesweeper.wf
      {| Minesweeper.height := 2; Minesweeper.width := 2;
         Minesweeper.mines := {[(1, 1)]};
         Minesweeper.board := [[false; false]; [false; true]];
         Minesweeper.mines_found := ∅ |}.
Proof.
  assert (Minesweeper.init 2 2 1 [(5, 3)]
          = Minesweeper.Built
              {| Minesweeper.height := 2; Minesweeper.width := 2;
                 Minesweeper.mines := {[(1, 1)]};
                 Minesweeper.board := [[false; false]; [false; true]];
                 Minesweeper.mines_found := ∅ |}) as Hinit
    by (vm_compute; reflexivity).
  split; [exact Hinit |].
  exact (proj1 (game_init_built _ _ _ _ _ Hinit)).
Defined.

(** X20.  Edges of the constructor of [Minesweeper].  With no mine
    requested it returns the empty game at once, for any size, even a
    negative one.  With mines requested and a height or width that is
    not positive, [random.randrange] raises.  No list access of the
    constructor is ever out of range.  And it never returns a game when
    the number of mines requested is negative or above the number of
    cells, however many draws it is given: the loop cannot end. *)
Theorem game_init_edges (h w n : Z) (draws : list (Z * Z)) :
  (n = 0 →
   Minesweeper.init h w n draws
   = Minesweeper.Built
       {| Minesweeper.height := h; Minesweeper.width := w;
          Minesweeper.mines := ∅;
          Minesweeper.board := Minesweeper.empty_board h w;
          Minesweeper.mines_found := ∅ |})
  ∧ (n ≠ 0 → h ≤ 0 ∨ w ≤ 0 →
     Minesweeper.init h w n draws = Minesweeper.ValueError)
  ∧ Minesweeper.init h w n draws ≠ Minesweeper.IndexError
  ∧ (n < 0 ∨ Z.of_nat (Z.to_nat h * Z.to_nat w) < n →
     ∀ g, Minesweeper.init h w n draws ≠ Minesweeper.Built g).
Proof.
  split; [| split; [| split]].
  - intros ->. unfold Minesweeper.init.
    destruct draws as [| [d1 d2] rest]; cbn [Minesweeper.place];
      (rewrite decide_True; [done | cbn; by rewrite size_empty]).
  - intros Hn Hdim. unfold Minesweeper.init.
    assert (Z.of_nat (size (∅ : gset Cell)) ≠ n) as Hsz
      by (rewrite size_empty; lia).
    destruct draws as [| [d1 d2] rest]; cbn [Minesweeper.place];
      cbn [Minesweeper.mines Minesweeper.height Minesweeper.width];
      rewrite (decide_False (P := _ = n)) by done;
      destruct (decide (h ≤ 0)); try done;
      rewrite decide_True by lia; done.
  - intros Hinit. unfold Minesweeper.init in Hinit.
    pose proof (place_spec draws n _ (wf_empty h w)) as Hspec.
    by rewrite Hinit in Hspec.
  - intros Hn g Hinit. unfold Minesweeper.init in Hinit.
    pose proof (place_spec draws n _ (wf_empty h w)) as Hspec.
    rewrite Hinit in Hspec. cbn in Hspec.
    destruct Hspec as (Hwf & Hsz & Hh & Hw & _).
    pose proof (wf_mines_bound g Hwf) as Hbound.
    rewrite Hh, Hw in Hbound. lia.
Qed.

(** [game_init_edges]: five mines on a 2 x 2 board. *)
Lemma game_init_edges_witness :
  (5 < 0 ∨ Z.of_nat (Z.to_nat 2 * Z.to_nat 2) < 5)
  ∧ ∀ g, Minesweeper.init 2 2 5 [(0, 0); (0, 1); (1, 0); (1, 1); (0, 0)]
         ≠ Minesweeper.Built g.
Proof.
  assert (5 < 0 ∨ Z.of_nat (Z.to_nat 2 * Z.to_nat 2) < 5) as Hn
    by (right; cbn; lia).
  split; [exact Hn |].
  exact (proj2 (proj2 (proj2 (game_init_edges 2 2 5 _))) Hn).
Defined.

(** The true count, as the number of candidates that are adjacent
    mines. *)
Lemma true_count_filter (H : gset Cell) (h w : Z) (cell : Cell) :
  true_count H h w cell
  = Z.of_nat (length (filter (fun n => adjacent h w cell n ∧ n ∈ H)
                             (candidates cell))).
Proof.
  unfold true_count. f_equal.
  set (P := fun n => adjacent h w cell n ∧ n ∈ H).
  assert (adj_set h w cell ∩ H = list_to_set (filter P (candidates cell)))
    as ->.
  { apply set_eq. intros n.
    rewrite elem_of_intersection, elem_of_adj_set, elem_of_list_to_set,
      list_elem_of_filter, elem_of_candidates.
    unfold P, adjacent. tauto. }
  apply size_list_to_set, NoDup_filter, NoDup_candidates.
Qed.

(** X21.  On a well-formed game [nearby_mines(cell)] raises nothing and
    returns, for any cell, on the board or off it, the number of mines
    among the in-bounds neighbours of the cell: the count that the
    inbound contract of [add_knowledge] asks for. *)
Theorem nearby_mines_true_count (g : Minesweeper.t) (cell : Cell) :
  Minesweeper.wf g →
  Minesweeper.nearby_mines g cell
  = Some (true_count (Minesweeper.mines g) (Minesweeper.height g)
            (Minesweeper.width g) cell).
Proof.
  intros Hwf. unfold Minesweeper.nearby_mines.
  rewrite nearby_fold by done.
  by rewrite Z.add_0_l, true_count_filter.
Qed.

(** [nearby_mines_true_count] on the 2 x 2 game with its mine at
    [(1, 1)]. *)
Lemma nearby_mines_true_count_witness :
  Minesweeper.wf
    {| Minesweeper.height := 2; Minesweeper.width := 2;
       Minesweeper.mines := {[(1, 1)]};
       Minesweeper.board := [[false; false]; [false; true]];
       Minesweeper.mines_found := ∅ |}
  ∧ Minesweeper.nearby_mines
      {| Minesweeper.height := 2; Minesweeper.width := 2;
         Minesweeper.mines := {[(1, 1)]};
         Minesweeper.board := [[false; false]; [false; true]];
         Minesweeper.mines_found := ∅ |} (0, 0)
    = Some (true_count {[(1, 1)]} 2 2 (0, 0)).
Proof.
  pose proof wf_corner_game as Hwf.
  split; [exact Hwf |].
  exact (nearby_mines_true_count _ (0, 0) Hwf).
Defined.

(** X22.  [is_mine] on a well-formed game.  For a cell on the board it
    tells whether the cell is a mine.  A negative row or column that is
    at least minus the height or width is read from the other end of the
    board, as Python indexes lists: [is_mine((i - height, j))] and
    [is_mine((i, j - width))] answer for [(i, j)].  Any row or column
    further out raises [IndexError]. *)
Theorem is_mine_indexing (g : Minesweeper.t) :
  Minesweeper.wf g →
  (∀ i j, (0 ≤ i ∧ i < Minesweeper.height g) →
          (0 ≤ j ∧ j < Minesweeper.width g) →
          Minesweeper.is_mine g (i, j)
          = Some (bool_decide ((i, j) ∈ Minesweeper.mines g))
          ∧ Minesweeper.is_mine g (i - Minesweeper.height g, j)
            = Minesweeper.is_mine g (i, j)
          ∧ Minesweeper.is_mine g (i, j - Minesweeper.width g)
            = Minesweeper.is_mine g (i, j))
  ∧ (∀ i j, i < - Minesweeper.height g ∨ Minesweeper.height g ≤ i
            ∨ j < - Minesweeper.width g ∨ Minesweeper.width g ≤ j →
            Minesweeper.is_mine g (i, j) = None).
Proof.
  intros Hwf. split.
  - intros i j Hi Hj.
    destruct (wf_row g i Hwf (proj1 Hi) (proj2 Hi)) as (row & Hrow & Hrl).
    destruct Hwf as (Hlen & Hrows & _ & Hget).
    unfold Minesweeper.is_mine, Minesweeper.board_get in *. cbn [fst snd].
    split; [by apply Hget |]. split.
    + rewrite getitem_negative by lia. rewrite getitem_nonneg by lia.
      do 2 f_equal. lia.
    + rewrite getitem_nonneg by lia. rewrite Hrow. cbn [mbind option_bind].
      rewrite getitem_negative by lia. rewrite getitem_nonneg by lia.
      f_equal. lia.
  - intros i j Hout. destruct Hwf as (Hlen & Hrows & _ & _).
    unfold Minesweeper.is_mine, Minesweeper.board_get. cbn [fst snd].
    destruct (Minesweeper.getitem (Minesweeper.board g) i) as [row |] eqn:Hr;
      [| done].
    cbn [mbind option_bind].
    assert (length row = Z.to_nat (Minesweeper.width g)) as Hrl.
    { apply getitem_elem_of in Hr.
      by apply (proj1 (Forall_forall _ _) Hrows). }
    apply getitem_out. rewrite Hrl.
    destruct (decide (i < - Minesweeper.height g ∨ Minesweeper.height g ≤ i))
      as [Hi | Hi]; [| lia].
    rewrite getitem_out in Hr; [done |]. rewrite Hlen. lia.
Qed.

(** [is_mine_indexing] on the 2 x 2 game with its mine at [(1, 1)]: the
    row [-1] is read as the row [1]. *)
Lemma is_mine_indexing_witness :
  Minesweeper.wf
    {| Minesweeper.height := 2; Minesweeper.width := 2;
       Minesweeper.mines := {[(1, 1)]};
       Minesweeper.board := [[false; false]; [false; true]];
       Minesweeper.mines_found := ∅ |}
  ∧ Minesweeper.is_mine
      {| Minesweeper.height := 2; Minesweeper.width := 2;
         Minesweeper.mines := {[(1, 1)]};
         Minesweeper.board := [[false; false]; [false; true]];
         Minesweeper.mines_found := ∅ |} (-1, 1)
    = Minesweeper.is_mine
        {| Minesweeper.height := 2; Minesweeper.width := 2;
           Minesweeper.mines := {[(1, 1)]};
           Minesweeper.board := [[false; false]; [false; true]];
           Minesweeper.mines_found := ∅ |} (1, 1).
Proof.
  pose proof wf_corner_game as Hwf.
  split; [exact Hwf |].
  exact (proj1 (proj2 (proj1 (is_mine_indexing _ Hwf) 1 1 ltac:(cbn; lia)
                         ltac:(cbn; lia)))).
Defined.

(** X23.  The game answers as the engine's inbound contract requires:
    for a well-formed game and an engine with the same board size, a
    cell on the board that [is_mine] reports free, together with the
    count [nearby_mines] returns for it, is a probe that obeys the
    contract; ingesting it keeps the engine's records true on the game's
    mines. *)
Theorem game_feeds_engine (g : Minesweeper.t) (st : AI) (cell : Cell)
    (cnt : Z) :
  Minesweeper.wf g →
  height st = Minesweeper.height g → width st = Minesweeper.width g →
  on_board st cell →
  Minesweeper.is_mine g cell = Some false →
  Minesweeper.nearby_mines g cell = Some cnt →
  inbound (Minesweeper.mines g) st (Ingest cell cnt)
  ∧ (sound (Minesweeper.mines g) st →
     sound (Minesweeper.mines g) (add_knowledge cell cnt st)).
Proof.
  intros Hwf Hh Hw [Hi Hj] Hfree Hcnt.
  unfold Minesweeper.nearby_mines in Hcnt.
  rewrite nearby_fold, Z.add_0_l, <- true_count_filter in Hcnt by done.
  injection Hcnt as <-.
  assert (cell ∉ Minesweeper.mines g) as Hcell.
  { destruct cell as [i j]. cbn [fst snd] in *. rewrite Hh in Hi.
    rewrite Hw in Hj.
    pose proof Hwf as (_ & _ & _ & Hget).
    unfold Minesweeper.is_mine in Hfree. cbn [fst snd] in Hfree.
    rewrite (Hget i j Hi Hj) in Hfree. injection Hfree as Hfree.
    by apply bool_decide_eq_false in Hfree. }
  rewrite <- Hh, <- Hw.
  assert (inbound (Minesweeper.mines g) st
            (Ingest cell
               (true_count (Minesweeper.mines g) (height st) (width st) cell)))
    as Hin by (cbn [inbound]; done).
  split; [exact Hin |]. intros Hst. by apply sound_add_knowledge.
Qed.

(** [game_feeds_engine] for the first probe, of [(0, 0)], on the 2 x 2
    game with its mine at [(1, 1)]. *)
Lemma game_feeds_engine_witness :
  Minesweeper.wf
    {| Minesweeper.height := 2; Minesweeper.width := 2;
       Minesweeper.mines := {[(1, 1)]};
       Minesweeper.board := [[false; false]; [false; true]];
       Minesweeper.mines_found := ∅ |}
  ∧ inbound {[(1, 1)]} (init 2 2) (Ingest (0, 0) 1).
Proof.
  pose proof wf_corner_game as Hwf.
  split; [exact Hwf |].
  refine (proj1 (game_feeds_engine _ (init 2 2) (0, 0) 1 Hwf _ _ _ _ _)).
  - reflexivity.
  - reflexivity.
  - unfold on_board. cbn. lia.
  - vm_compute. reflexivity.
  - vm_compute. reflexivity.
Defined.
